(** * UTM receiver: a shallow embedding of [server/src/main.py] and
      [server/src/db.py], and the properties of the [/track] and [/health]
      routes and of the storage gateway. *)

From Stdlib Require Import Ascii String NArith Bool Lia PeanoNat List.
Import ListNotations.

Set Implicit Arguments.
Local Open Scope N_scope.

(** ** Python strings

    A Python [str] is a sequence of code points; [ord] of a character is a
    number below [0x110000].  Surrogate code points (U+D800..U+DFFF) are
    legal elements of a [str]. *)

Definition char := N.
Definition pystr := list char.

(** An ASCII literal of the source, as a [str]. *)
Definition lit (s : string) : pystr :=
  map N_of_ascii (list_ascii_of_string s).

Arguments lit : simpl never.

Fixpoint str_eqb (a b : pystr) : bool :=
  match a, b with
  | [], [] => true
  | x :: a', y :: b' => (x =? y) && str_eqb a' b'
  | _, _ => false
  end.

(** [s.startswith(p)] *)
Fixpoint startswith (p s : pystr) : bool :=
  match p, s with
  | [], _ => true
  | x :: p', y :: s' => (x =? y) && startswith p' s'
  | _ :: _, [] => false
  end.

(** [sep.join(items)] *)
Fixpoint join (sep : pystr) (items : list pystr) : pystr :=
  match items with
  | [] => []
  | [x] => x
  | x :: rest => x ++ sep ++ join sep rest
  end.

(** ** Python dictionaries with [str] keys

    A [dict] keeps its keys in insertion order and holds each key once;
    assigning to a key that is present replaces the value in place. *)

Definition dict (V : Type) := list (pystr * V).

Fixpoint dict_set {V} (k : pystr) (v : V) (d : dict V) : dict V :=
  match d with
  | [] => [(k, v)]
  | (k', v') :: d' =>
      if str_eqb k' k then (k', v) :: d' else (k', v') :: dict_set k v d'
  end.

Fixpoint dict_get {V} (k : pystr) (d : dict V) : option V :=
  match d with
  | [] => None
  | (k', v') :: d' => if str_eqb k' k then Some v' else dict_get k d'
  end.

Definition keys {V} (d : dict V) : list pystr := map fst d.

(** [{k: v for k, v in pairs}] *)
Definition dict_of_pairs {V} (pairs : list (pystr * V)) : dict V :=
  fold_left (fun d kv => dict_set (fst kv) (snd kv) d) pairs [].

(** ** The request, as the handler reads it *)

(** [request.client]: the peer address, [None] when the server has none. *)
Record Address := { host : pystr; port : N }.

Record Request := {
  (** the key-value pairs of the query string, in order, duplicates kept
      (the list behind [request.query_params]) *)
  query_params : list (pystr * pystr);
  client : option Address;
  (** header names are lower case, as the server hands them over *)
  headers : list (pystr * pystr)
}.

(** [request.query_params.items()]: the items of the mapping view, which
    holds one value per key. *)
Definition items (qp : list (pystr * pystr)) : dict pystr := dict_of_pairs qp.

(** [request.headers.get(name, default)]: the first header of that name. *)
Fixpoint headers_get (hs : list (pystr * pystr)) (name default : pystr) : pystr :=
  match hs with
  | [] => default
  | (n, v) :: hs' => if str_eqb n name then v else headers_get hs' name default
  end.

Definition utm_prefix : pystr := lit "utm_".

(** One step of the comprehension: [if k.startswith('utm_')], the pair
    goes into the dictionary. *)
Definition keep_utm (d : dict pystr) (kv : pystr * pystr) : dict pystr :=
  if startswith utm_prefix (fst kv) then dict_set (fst kv) (snd kv) d else d.

(** [{k: v for k, v in request.query_params.items() if k.startswith('utm_')}] *)
Definition utm_params_of (qp : list (pystr * pystr)) : dict pystr :=
  fold_left keep_utm (items qp) [].

Definition is_utm (kv : pystr * pystr) : bool := startswith utm_prefix (fst kv).

(** The value of the last pair of [qp] whose key is [k]. *)
Fixpoint last_value (k : pystr) (qp : list (pystr * pystr)) : option pystr :=
  match qp with
  | [] => None
  | (k', v') :: qp' =>
      match last_value k qp' with
      | Some v => Some v
      | None => if str_eqb k' k then Some v' else None
      end
  end.

(** ** JSON text of a dictionary: [json.dumps]

    [json.dumps(obj)] on a [dict] of strings, with the encoder's two
    options that the program uses: the defaults ([ensure_ascii=True],
    separators [", "] and [": "]) in [insert_click], and the compact form
    without [ensure_ascii] with which the framework renders a handler's
    returned dictionary. *)

Definition dquote : char := 34.
Definition backslash : char := 92.
Definition dq : pystr := [dquote].
Definition nl : pystr := [10].

(** One digit of [format(n, 'x')]. *)
Definition hexdigit (d : N) : char := if d <? 10 then 48 + d else 87 + d.

(** ['{0:04x}'.format(n)] for [n < 0x10000]. *)
Definition hex4 (n : N) : pystr :=
  [hexdigit (n / 4096 mod 16); hexdigit (n / 256 mod 16);
   hexdigit (n / 16 mod 16); hexdigit (n mod 16)].

Definition uescape (n : N) : pystr := backslash :: 117 :: hex4 n.

(** The replacement of one character in [encode_basestring_ascii]
    ([ensure_ascii = true]) and [encode_basestring] ([false]). *)
Definition enc_char (ensure_ascii : bool) (c : char) : pystr :=
  if c =? dquote then [backslash; dquote]
  else if c =? backslash then [backslash; backslash]
  else if c =? 8 then [backslash; 98]
  else if c =? 12 then [backslash; 102]
  else if c =? 10 then [backslash; 110]
  else if c =? 13 then [backslash; 114]
  else if c =? 9 then [backslash; 116]
  else if c <? 32 then uescape c
  else if ensure_ascii && (126 <? c) then
    if c <? 65536 then uescape c
    else
      let n := c - 65536 in
      let s1 := N.lor 55296 (N.land (N.shiftr n 10) 1023) in
      let s2 := N.lor 56320 (N.land n 1023) in
      uescape s1 ++ uescape s2
  else [c].

Definition enc_body (ensure_ascii : bool) (s : pystr) : pystr :=
  flat_map (enc_char ensure_ascii) s.

Definition enc_str (ensure_ascii : bool) (s : pystr) : pystr :=
  dq ++ enc_body ensure_ascii s ++ dq.

Definition enc_member (ensure_ascii : bool) (key_separator : pystr)
    (kv : pystr * pystr) : pystr :=
  enc_str ensure_ascii (fst kv) ++ key_separator ++ enc_str ensure_ascii (snd kv).

Definition json_dumps_with (ensure_ascii : bool) (item_separator key_separator : pystr)
    (d : dict pystr) : pystr :=
  lit "{" ++ join item_separator (map (enc_member ensure_ascii key_separator) d) ++ lit "}".

(** [json.dumps(utm_params)] *)
Definition json_dumps (d : dict pystr) : pystr :=
  json_dumps_with true (lit ", ") (lit ": ") d.

Arguments json_dumps : simpl never.

(** ** Reading a stored document back *)

Definition unhexdigit (c : char) : option N :=
  if (48 <=? c) && (c <=? 57) then Some (c - 48)
  else if (97 <=? c) && (c <=? 102) then Some (c - 87)
  else if (65 <=? c) && (c <=? 70) then Some (c - 55)
  else None.

Definition unhex4 (h1 h2 h3 h4 : char) : option N :=
  match unhexdigit h1, unhexdigit h2, unhexdigit h3, unhexdigit h4 with
  | Some a, Some b, Some c, Some d => Some (a * 4096 + b * 256 + c * 16 + d)
  | _, _, _, _ => None
  end.

Definition is_high_surrogate (c : char) : bool := (55296 <=? c) && (c <=? 56319).
Definition is_low_surrogate (c : char) : bool := (56320 <=? c) && (c <=? 57343).

(** A [\uXXXX] escape at the head of [s]. *)
Definition decode_uXXXX (s : pystr) : option (N * pystr) :=
  match s with
  | b :: s1 =>
      if b =? backslash then
        match s1 with
        | u :: s2 =>
            if u =? 117 then
              match s2 with
              | h1 :: h2 :: h3 :: h4 :: rest =>
                  match unhex4 h1 h2 h3 h4 with
                  | Some n => Some (n, rest)
                  | None => None
                  end
              | _ => None
              end
            else None
        | [] => None
        end
      else None
  | [] => None
  end.

(** One character of a JSON string body, with the text after it. *)
Definition decode_char (s : pystr) : option (char * pystr) :=
  match s with
  | [] => None
  | c :: s1 =>
      if c =? backslash then
        match s1 with
        | [] => None
        | esc :: s2 =>
            if esc =? 117 then
              match decode_uXXXX s with
              | None => None
              | Some (uni, s3) =>
                  if is_high_surrogate uni then
                    match decode_uXXXX s3 with
                    | Some (uni2, s4) =>
                        if is_low_surrogate uni2
                        then Some (65536 + N.lor (N.shiftl (uni - 55296) 10) (uni2 - 56320), s4)
                        else Some (uni, s3)
                    | None => Some (uni, s3)
                    end
                  else Some (uni, s3)
              end
            else if esc =? dquote then Some (dquote, s2)
            else if esc =? backslash then Some (backslash, s2)
            else if esc =? 47 then Some (47, s2)
            else if esc =? 98 then Some (8, s2)
            else if esc =? 102 then Some (12, s2)
            else if esc =? 110 then Some (10, s2)
            else if esc =? 114 then Some (13, s2)
            else if esc =? 116 then Some (9, s2)
            else None
        end
      else if c <? 32 then None
      else Some (c, s1)
  end.

(** The body of a string up to its closing quote. *)
Fixpoint scan (fuel : nat) (s : pystr) : option (pystr * pystr) :=
  match fuel with
  | O => None
  | S fuel' =>
      match s with
      | [] => None
      | c :: s1 =>
          if c =? dquote then Some ([], s1)
          else
            match decode_char s with
            | None => None
            | Some (x, s2) =>
                match scan fuel' s2 with
                | None => None
                | Some (str, rest) => Some (x :: str, rest)
                end
            end
      end
  end.

Definition scanstring (s : pystr) : option (pystr * pystr) := scan (length s) s.

Definition is_ws (c : char) : bool :=
  (c =? 32) || (c =? 9) || (c =? 10) || (c =? 13).

Fixpoint skip_ws (s : pystr) : pystr :=
  match s with
  | c :: s' => if is_ws c then skip_ws s' else s
  | [] => []
  end.

(** The text after the token [c], white space before it skipped. *)
Definition expect (c : char) (s : pystr) : option pystr :=
  match skip_ws s with
  | x :: s' => if x =? c then Some s' else None
  | [] => None
  end.

(** The members of an object, from just after the opening quote of a key:
    the key, a colon, a string value, then a closing brace or a comma and
    the next member. *)
Fixpoint parse_members (fuel : nat) (s : pystr) (acc : list (pystr * pystr))
    : option (list (pystr * pystr) * pystr) :=
  match fuel with
  | O => None
  | S fuel' =>
      match scanstring s with
      | None => None
      | Some (key, s1) =>
          match expect 58 s1 with
          | None => None
          | Some s2 =>
              match expect dquote s2 with
              | None => None
              | Some s3 =>
                  match scanstring s3 with
                  | None => None
                  | Some (value, s4) =>
                      match skip_ws s4 with
                      | e :: s5 =>
                          if e =? 125 then Some (acc ++ [(key, value)], s5)
                          else if e =? 44 then
                            match expect dquote s5 with
                            | Some s6 => parse_members fuel' s6 (acc ++ [(key, value)])
                            | None => None
                            end
                          else None
                      | [] => None
                      end
                  end
              end
          end
      end
  end.

(** Modelled from the spec: the reading side of the round trip
    ("retrievable from storage with that exact mapping preserved") has no
    code in the repository, which only writes.  [json_loads] is the JSON
    decoder for a document that is an object with string members, the
    inverse the stored text is read with: escapes, [\uXXXX] with surrogate
    pairs joined, white space between tokens, later members replacing
    earlier ones of the same key. *)
Definition json_loads (s : pystr) : option (dict pystr) :=
  match skip_ws s with
  | o :: s1 =>
      if o =? 123 then
        match skip_ws s1 with
        | c :: s2 =>
            if c =? 125 then
              match skip_ws s2 with [] => Some [] | _ :: _ => None end
            else if c =? dquote then
              match parse_members (length s2) s2 [] with
              | Some (pairs, rest) =>
                  match skip_ws rest with
                  | [] => Some (dict_of_pairs pairs)
                  | _ :: _ => None
                  end
              | None => None
              end
            else None
        | [] => None
        end
      else None
  | [] => None
  end.

(** Whether [s] starts with the escape of a low surrogate. *)
Definition low_escape_ahead (s : pystr) : bool :=
  match decode_uXXXX s with
  | Some (u, _) => is_low_surrogate u
  | None => false
  end.

(** The text [json.dumps] gives an object after the opening quote of its
    first key [kv], with [d] the members that follow and [rest] the text
    after the closing brace. *)
Fixpoint members_tail (kv : pystr * pystr) (d : dict pystr) (rest : pystr) : pystr :=
  enc_body true (fst kv) ++ dquote :: 58 :: 32 :: dquote ::
  enc_body true (snd kv) ++ dquote ::
  match d with
  | [] => 125 :: rest
  | kv' :: d' => 44 :: 32 :: dquote :: members_tail kv' d' rest
  end.

(** A high surrogate immediately followed by a low surrogate. *)
Fixpoint has_surrogate_pair (s : pystr) : bool :=
  match s with
  | c :: (c' :: _) as s' =>
      (is_high_surrogate c && is_low_surrogate c') || has_surrogate_pair s'
  | _ => false
  end.

(** A [str]: code points in range, and no code point sequence that is the
    two halves of a surrogate pair. *)
Definition text (s : pystr) : Prop :=
  Forall (fun c => c < 1114112) s /\ has_surrogate_pair s = false.

Definition text_dict (d : dict pystr) : Prop :=
  NoDup (keys d) /\ Forall (fun kv => text (fst kv) /\ text (snd kv)) d.

(** ** Exceptions, the log and the world

    [exn] stands for an instance of [Exception]: [type(e).__name__] and
    [str(e)]. *)

Record exn := { exn_type : pystr; exn_msg : pystr }.

Inductive Result (A : Type) : Type :=
| Ok (a : A)
| Raise (e : exn).
Arguments Ok {A} a.
Arguments Raise {A} e.

Inductive Level := DEBUG | INFO | ERROR.

(** [logging.info(...)] goes to the root logger, [logger.info(...)] to the
    module's own ([logging.getLogger(__name__)]). *)
Inductive Logger := RootLogger | ModuleLogger.

(** A log message.  Three messages interpolate values whose text is made
    by the library ([urlparse] of the connection string, the [repr] of a
    dictionary); they keep the values. *)
Inductive Message :=
| Text (s : pystr)
| Connecting (url : pystr)
| TrackingRequest (ip : pystr) (params : dict pystr)
| AboutToInsert (params : dict pystr) (ip user_agent referrer : pystr).

Record LogRecord := { logger : Logger; level : Level; message : Message }.

(** The statements the gateway sends. *)
Inductive Query :=
| CreateTable   (* CREATE TABLE IF NOT EXISTS utm_clicks (...) *)
| SelectProbe   (* SELECT 1 FROM utm_clicks LIMIT 1 *)
| InsertClick.  (* INSERT INTO utm_clicks (...) VALUES ($1, $2, $3, $4, NOW()) *)

(** What the driver is asked to do, in order. *)
Inductive DriverCall :=
| CallCreatePool (dsn : pystr)
| CallAcquire
| CallExecute (q : Query) (args : list pystr)
| CallRelease
| CallClose.

Inductive Pool := MkPool (dsn : pystr).

(** A row of [utm_clicks]. *)
Record Row := {
  row_id : N;
  utm_params : pystr;
  ip_address : pystr;
  user_agent : pystr;
  referrer : pystr;
  created_at : N
}.

(** The process and its store.  [faults] is what the backing store will do
    to the coming driver calls, one entry per call: [Some e] makes the call
    raise [e], [None] (or no entry) lets it go through. *)
Record World := {
  DATABASE_URL : option pystr;     (* os.getenv("DATABASE_URL") *)
  pool : option Pool;              (* db.pool *)
  table : option (list Row);       (* utm_clicks, None while it does not exist *)
  next_id : N;                     (* the BIGSERIAL sequence *)
  now : N;                         (* NOW() *)
  faults : list (option exn);
  trace : list DriverCall;
  log : list LogRecord
}.

Definition rows (w : World) : list Row :=
  match table w with Some rs => rs | None => [] end.

Definition with_pool (p : option Pool) (w : World) : World :=
  {| DATABASE_URL := DATABASE_URL w; pool := p; table := table w;
     next_id := next_id w; now := now w; faults := faults w;
     trace := trace w; log := log w |}.

Definition with_table (t : option (list Row)) (n : N) (w : World) : World :=
  {| DATABASE_URL := DATABASE_URL w; pool := pool w; table := t;
     next_id := n; now := now w; faults := faults w;
     trace := trace w; log := log w |}.

Definition with_faults (f : list (option exn)) (w : World) : World :=
  {| DATABASE_URL := DATABASE_URL w; pool := pool w; table := table w;
     next_id := next_id w; now := now w; faults := f;
     trace := trace w; log := log w |}.

Definition with_trace (t : list DriverCall) (w : World) : World :=
  {| DATABASE_URL := DATABASE_URL w; pool := pool w; table := table w;
     next_id := next_id w; now := now w; faults := faults w;
     trace := t; log := log w |}.

Definition with_log (l : list LogRecord) (w : World) : World :=
  {| DATABASE_URL := DATABASE_URL w; pool := pool w; table := table w;
     next_id := next_id w; now := now w; faults := faults w;
     trace := trace w; log := l |}.

(** ** Computations: state and exceptions *)

Definition M (A : Type) : Type := World -> Result A * World.

Definition ret {A} (a : A) : M A := fun w => (Ok a, w).

Definition raise {A} (e : exn) : M A := fun w => (Raise e, w).

Definition bind {A B} (m : M A) (k : A -> M B) : M B :=
  fun w =>
    match m w with
    | (Ok a, w') => k a w'
    | (Raise e, w') => (Raise e, w')
    end.

Declare Scope M_scope.
Delimit Scope M_scope with M.
Notation "x <- m ;; k" := (bind m (fun x => k))
  (at level 100, m at next level, right associativity) : M_scope.
Notation "m ;; k" := (bind m (fun _ => k))
  (at level 100, right associativity) : M_scope.
Local Open Scope M_scope.

(** [try: m  except Exception as e: h e] *)
Definition try_except {A} (m : M A) (h : exn -> M A) : M A :=
  fun w =>
    match m w with
    | (Ok a, w') => (Ok a, w')
    | (Raise e, w') => h e w'
    end.

(** [fin] runs when [m] is left, whichever way. *)
Definition finally {A} (m : M A) (fin : M unit) : M A :=
  fun w =>
    match m w with
    | (r, w') =>
        match fin w' with
        | (Ok _, w'') => (r, w'')
        | (Raise e, w'') => (Raise e, w'')
        end
    end.

(** A relation between worlds that every run of [m] respects. *)
Definition stable (R : World -> World -> Prop) {A} (m : M A) : Prop :=
  forall w, R w (snd (m w)).

Definition get {A} (f : World -> A) : M A := fun w => (Ok (f w), w).
Definition modify (f : World -> World) : M unit := fun w => (Ok tt, f w).

(** Logging as [logging.basicConfig(level=logging.INFO)] sets it up: a
    record below [INFO] is dropped. *)
Definition emit (lg : Logger) (lv : Level) (m : Message) : M unit :=
  match lv with
  | DEBUG => ret tt
  | _ => modify (fun w => with_log (log w ++ [{| logger := lg; level := lv; message := m |}]) w)
  end.

Definition error_text (what : pystr) (e : exn) : Message :=
  Text (what ++ exn_type e ++ lit ": " ++ exn_msg e).

(** ** The driver

    The connection pool and its connections are the driver's; the program
    sees calls that return or raise.  A statement that raises changes
    nothing in the store. *)

Definition driver (c : DriverCall) : M unit :=
  modify (fun w => with_trace (trace w ++ [c]) w) ;;
  f <- get faults ;;
  match f with
  | [] => ret tt
  | None :: fs => modify (with_faults fs)
  | Some e :: fs => modify (with_faults fs) ;; raise e
  end.

Definition create_pool (dsn : pystr) : M Pool :=
  driver (CallCreatePool dsn) ;; ret (MkPool dsn).

Definition UndefinedTableError : exn :=
  {| exn_type := lit "UndefinedTableError";
     exn_msg := lit "relation " ++ dq ++ lit "utm_clicks" ++ dq ++ lit " does not exist" |}.

Definition execute (q : Query) (args : list pystr) : M unit :=
  driver (CallExecute q args) ;;
  t <- get table ;;
  match q, t with
  | CreateTable, None => modify (fun w => with_table (Some []) (next_id w) w)
  | CreateTable, Some _ => ret tt
  | SelectProbe, Some _ => ret tt
  | InsertClick, Some rs =>
      modify (fun w =>
        with_table
          (Some (rs ++ [{| row_id := next_id w;
                           utm_params := nth 0 args [];
                           ip_address := nth 1 args [];
                           user_agent := nth 2 args [];
                           referrer := nth 3 args [];
                           created_at := now w |}]))
          (next_id w + 1) w)
  | _, None => raise UndefinedTableError
  end.

Definition NoneType_has_no (attr : string) : exn :=
  {| exn_type := lit "AttributeError";
     exn_msg := lit "'NoneType' object has no attribute '" ++ lit attr ++ lit "'" |}.

(** [async with self.pool.acquire() as connection: body] *)
Definition with_connection {A} (body : M A) : M A :=
  p <- get pool ;;
  match p with
  | None => raise (NoneType_has_no "acquire")
  | Some _ =>
      driver CallAcquire ;;
      finally body (modify (fun w => with_trace (trace w ++ [CallRelease]) w))
  end.

(** ** [db.py]: class [Database] *)

Definition ValueError (msg : string) : exn :=
  {| exn_type := lit "ValueError"; exn_msg := lit msg |}.

(** [connect] once the pool is stored: the table is created if it is not
    there and probed, and the pool is returned. *)
Definition ensure_table : M (option Pool) :=
  emit RootLogger INFO (Text (lit "Database connection pool created successfully")) ;;
  with_connection
    (execute CreateTable [] ;;
     emit RootLogger INFO (Text (lit "utm_clicks table creation check completed successfully"))) ;;
  try_except
    (with_connection
       (execute SelectProbe [] ;;
        emit RootLogger INFO (Text (lit "utm_clicks table exists and is accessible"))))
    (fun e =>
       emit RootLogger ERROR (error_text (lit "utm_clicks table verification failed: ") e) ;;
       raise e) ;;
  get pool.

Definition connect_with (url : pystr) : M (option Pool) :=
  emit RootLogger INFO (Connecting url) ;;
  p <- create_pool url ;;
  modify (with_pool (Some p)) ;;
  ensure_table.

Definition connect : M (option Pool) :=
  url <- get DATABASE_URL ;;
  match url with
  | None | Some [] =>
      emit RootLogger ERROR
        (Text (lit "DATABASE_URL environment variable is required but not set")) ;;
      raise (ValueError "DATABASE_URL environment variable is required")
  | Some u => connect_with u
  end.

Definition disconnect : M unit :=
  p <- get pool ;;
  match p with
  | Some _ => driver CallClose ;; modify (with_pool None)
  | None => ret tt
  end.

(** The body of the [try] block of [insert_click]: the insert itself. *)
Definition insert_body (utm_params : dict pystr) (ip user_agent referrer : pystr)
    : M unit :=
  with_connection
    (execute InsertClick [json_dumps utm_params; ip; user_agent; referrer] ;;
     emit RootLogger INFO
       (Text (lit "Successfully inserted UTM click data into utm_clicks table"))).

(** The [try] block of [insert_click] with its [except] branch. *)
Definition insert_statement (utm_params : dict pystr) (ip user_agent referrer : pystr)
    : M unit :=
  try_except
    (insert_body utm_params ip user_agent referrer)
    (fun e =>
       emit RootLogger ERROR (error_text (lit "Database insert failed: ") e) ;;
       raise e).

(** [if not self.pool: await self.connect()] *)
Definition lazy_init : M unit :=
  p <- get pool ;;
  match p with
  | None => connect ;; ret tt
  | Some _ => ret tt
  end.

Definition insert_click (utm_params : dict pystr) (ip user_agent referrer : pystr)
    : M unit :=
  lazy_init ;;
  insert_statement utm_params ip user_agent referrer.

(** ** [main.py]: the routes *)

Record Response := {
  status_code : N;
  media_type : pystr;
  content : pystr
}.

(** [HTMLResponse(content=..., status_code=...)], 200 when not given *)
Definition HTMLResponse (content : pystr) (status_code : N) : Response :=
  {| status_code := status_code; media_type := lit "text/html"; content := content |}.

(** What the framework makes of a dictionary a handler returns. *)
Definition JSONResponse (d : dict pystr) : Response :=
  {| status_code := 200; media_type := lit "application/json";
     content := json_dumps_with false (lit ",") (lit ":") d |}.

Definition health_check : M (dict pystr) :=
  ret [(lit "status", lit "ok")].

(** [GET /health] *)
Definition health_route : M Response :=
  d <- health_check ;; ret (JSONResponse d).

Definition error_html : pystr :=
  join nl [
    lit "<!DOCTYPE html>";
    lit "<html>";
    lit "<head>";
    lit "    <title>UTM Receiver - Error</title>";
    lit "    <style>";
    lit "        body { font-family: Arial, sans-serif; max-width: 600px; margin: 50px auto; padding: 20px; text-align: center; }";
    lit "        .error { color: #dc3545; font-weight: bold; }";
    lit "    </style>";
    lit "</head>";
    lit "<body>";
    lit "    <h1>" ++ [128202] ++ lit " UTM Receiver</h1>";
    lit "    <p class=" ++ dq ++ lit "error" ++ dq ++ lit ">Failed to log UTM parameters. Please try again later.</p>";
    lit "</body>";
    lit "</html>"
  ].

(** [html_template]: the text before and after the field [{0}], with the
    doubled braces of the template single, as [format] leaves them. *)
Definition template_before : pystr :=
  join nl [
    lit "<!DOCTYPE html>";
    lit "<html>";
    lit "<head>";
    lit "    <title>UTM Receiver</title>";
    lit "    <style>";
    lit "        body {";
    lit "            font-family: Arial, sans-serif;";
    lit "            max-width: 600px;";
    lit "            margin: 50px auto;";
    lit "            padding: 20px;";
    lit "            border: 1px solid #ddd;";
    lit "            border-radius: 8px;";
    lit "            background-color: #f9f9f9;";
    lit "        }";
    lit "        h1 {";
    lit "            color: #333;";
    lit "            text-align: center;";
    lit "        }";
    lit "        .description {";
    lit "            color: #666;";
    lit "            text-align: center;";
    lit "            margin-bottom: 30px;";
    lit "        }";
    lit "        .success {";
    lit "            color: #28a745;";
    lit "            font-weight: bold;";
    lit "            text-align: center;";
    lit "            margin-bottom: 20px;";
    lit "        }";
    lit "        .parameters {";
    lit "            background-color: white;";
    lit "            padding: 20px;";
    lit "            border-radius: 5px;";
    lit "            border-left: 4px solid #007bff;";
    lit "            margin-bottom: 20px;";
    lit "        }";
    lit "        .parameters h3 {";
    lit "            margin-top: 0;";
    lit "            color: #333;";
    lit "        }";
    lit "        .parameters ul {";
    lit "            list-style-type: none;";
    lit "            padding: 0;";
    lit "        }";
    lit "        .parameters li {";
    lit "            padding: 5px 0;";
    lit "            border-bottom: 1px solid #eee;";
    lit "        }";
    lit "        .parameters li:last-child {";
    lit "            border-bottom: none;";
    lit "        }";
    lit "        .footer {";
    lit "            text-align: center;";
    lit "            color: #999;";
    lit "            font-style: italic;";
    lit "            margin-top: 30px;";
    lit "        }";
    lit "    </style>";
    lit "</head>";
    lit "<body>";
    lit "    <h1>" ++ [128202] ++ lit " UTM Receiver</h1>";
    lit "    ";
    lit "    <p class=" ++ dq ++ lit "description" ++ dq ++ lit ">";
    lit "        This link is used to track marketing campaigns.";
    lit "    </p>";
    lit "    ";
    lit "    <p class=" ++ dq ++ lit "success" ++ dq ++ lit ">";
    lit "        Your visit has been recorded successfully.";
    lit "    </p>";
    lit "    ";
    lit "    <div class=" ++ dq ++ lit "parameters" ++ dq ++ lit ">";
    lit "        <h3>Captured parameters:</h3>";
    lit "        <ul>";
    lit "            "
  ].

Definition template_after : pystr :=
  nl ++ join nl [
    lit "        </ul>";
    lit "    </div>";
    lit "    ";
    lit "    <p class=" ++ dq ++ lit "footer" ++ dq ++ lit ">";
    lit "        You may now close this page.";
    lit "    </p>";
    lit "</body>";
    lit "</html>"
  ].

(** [html_template.format(utm_html_list)] *)
Definition html_template_format (utm_html_list : pystr) : pystr :=
  template_before ++ utm_html_list ++ template_after.

Definition bullet : pystr := [8226].

(** ["<li>• {0}: {1}</li>".format(key, value)] *)
Definition li_format (kv : pystr * pystr) : pystr :=
  lit "<li>" ++ bullet ++ lit " " ++ fst kv ++ lit ": " ++ snd kv ++ lit "</li>".

Definition li_placeholder : pystr :=
  lit "<li>" ++ bullet ++ lit " No UTM parameters detected</li>".

(** The list [utm_html_items] the handler builds. *)
Definition utm_html_items (utm_params : dict pystr) : list pystr :=
  match utm_params with
  | [] => [li_placeholder]
  | _ :: _ => map li_format utm_params
  end.

(** The page of the success path: the items joined by a line break and the
    indentation, in the place of [{0}]. *)
Definition success_page (utm_params : dict pystr) : pystr :=
  html_template_format (join (nl ++ lit "            ") (utm_html_items utm_params)).

Definition error_response : Response := HTMLResponse error_html 500.

(** [request.client.host] *)
Definition client_host (request : Request) : M pystr :=
  match client request with
  | Some a => ret (host a)
  | None => raise (NoneType_has_no "host")
  end.

(** The inner [try] of [track_utm]: [None] when it falls through to the
    rendering, [Some r] when its [except] branch returns [r]. *)
Definition store_click (request : Request) (utm_params : dict pystr)
    : M (option Response) :=
  try_except
    (ip_address <- client_host request ;;
     let user_agent := headers_get (headers request) (lit "user-agent") [] in
     let referrer := headers_get (headers request) (lit "referer") [] in
     emit RootLogger DEBUG (AboutToInsert utm_params ip_address user_agent referrer) ;;
     insert_click utm_params ip_address user_agent referrer ;;
     emit ModuleLogger INFO (Text (lit "UTM click successfully logged to database")) ;;
     ret None)
    (fun db_error =>
       emit RootLogger ERROR (error_text (lit "Database insert failed: ") db_error) ;;
       ret (Some error_response)).

(** The body of the outer [try] of [track_utm]. *)
Definition track_body (request : Request) : M Response :=
  let utm_params := utm_params_of (query_params request) in
  ip <- client_host request ;;
  emit ModuleLogger INFO (TrackingRequest ip utm_params) ;;
  r <- store_click request utm_params ;;
  match r with
  | Some response => ret response
  | None => ret (HTMLResponse (success_page utm_params) 200)
  end.

(** [GET /track] *)
Definition track_utm (request : Request) : M Response :=
  try_except (track_body request)
    (fun e =>
       emit ModuleLogger ERROR (error_text (lit "Unexpected error in /track: ") e) ;;
       ret error_response).

(** ** Names for what the properties speak of *)

(** The headers the handler reads. *)
Definition request_user_agent (request : Request) : pystr :=
  headers_get (headers request) (lit "user-agent") [].

Definition request_referrer (request : Request) : pystr :=
  headers_get (headers request) (lit "referer") [].

Definition add_log (lg : Logger) (lv : Level) (m : Message) (w : World) : World :=
  with_log (log w ++ [{| logger := lg; level := lv; message := m |}]) w.

(** The world in which [track_utm] calls [insert_click]: the request has
    been logged. *)
Definition at_insert (request : Request) (a : Address) (w : World) : World :=
  add_log ModuleLogger INFO
    (TrackingRequest (host a) (utm_params_of (query_params request))) w.

(** The call [track_utm] makes to the gateway. *)
Definition gateway_call (request : Request) (a : Address) : M unit :=
  insert_click (utm_params_of (query_params request)) (host a)
    (request_user_agent request) (request_referrer request).

(** The row an insert of these values appends. *)
Definition new_row (w : World) (utm_params : dict pystr) (ip user_agent referrer : pystr)
    : Row :=
  {| row_id := next_id w; utm_params := json_dumps utm_params; ip_address := ip;
     user_agent := user_agent; referrer := referrer; created_at := now w |}.


(** [pat in s] *)
Definition occurs (pat s : pystr) : Prop :=
  exists before after, s = before ++ pat ++ after.

(** ** Sample requests and worlds *)

(** The mapping of the specification's round trip. *)
Definition sample_params : dict pystr :=
  [(lit "utm_source", lit "newsletter"); (lit "utm_campaign", lit "spring")].

(** Two mappings: the value of the first is the two code points U+D83D
    U+DE00, the value of the second the one code point U+1F600. *)
Definition sample_params_halves : dict pystr := [(lit "utm_term", [55357; 56832])].
Definition sample_params_astral : dict pystr := [(lit "utm_term", [128512])].

Definition sample_exn : exn :=
  {| exn_type := lit "TooManyConnectionsError"; exn_msg := lit "sorry, too many clients already" |}.

Definition sample_address : Address := {| host := lit "203.0.113.7"; port := 51514 |}.

(** [GET /track?utm_source=ads&utm_medium=cpc&ref=ignored] with
    [User-Agent: TestAgent/1.0] *)
Definition sample_request : Request :=
  {| query_params := [(lit "utm_source", lit "ads"); (lit "utm_medium", lit "cpc");
                      (lit "ref", lit "ignored")];
     client := Some sample_address;
     headers := [(lit "user-agent", lit "TestAgent/1.0")] |}.

(** The same request from a peer the server has no address for. *)
Definition sample_request_no_client : Request :=
  {| query_params := query_params sample_request;
     client := None;
     headers := headers sample_request |}.


(** [GET /track?utm_source=a&utm_source=b] *)
Definition sample_request_duplicate : Request :=
  {| query_params := [(lit "utm_source", lit "a"); (lit "utm_source", lit "b")];
     client := Some sample_address;
     headers := [] |}.

(** [GET /track?utm_term=<b>bold</b>] *)
Definition sample_request_markup : Request :=
  {| query_params := [(lit "utm_term", lit "<b>bold</b>")];
     client := Some sample_address;
     headers := [] |}.

(** A process that has started: the pool is there, the table exists. *)
Definition world_started (fs : list (option exn)) : World :=
  {| DATABASE_URL := Some (lit "postgresql://app@db.example/utm");
     pool := Some (MkPool (lit "postgresql://app@db.example/utm"));
     table := Some []; next_id := 1; now := 1000;
     faults := fs; trace := []; log := [] |}.

(** A process whose pool was never made. *)
Definition world_unconnected (fs : list (option exn)) : World :=
  {| DATABASE_URL := Some (lit "postgresql://app@db.example/utm");
     pool := None;
     table := None; next_id := 1; now := 1000;
     faults := fs; trace := []; log := [] |}.

(** ** [main.py]: [lifespan]

    The context manager around the application: what runs before the
    [yield], and what runs after it. *)

Definition lifespan_startup : M unit :=
  connect ;;
  emit ModuleLogger INFO (Text (lit "Database connected and utm_clicks table ready")).

Definition lifespan_shutdown : M unit := disconnect.

(** The application [app] run inside [lifespan]: there is no [try] around
    the [yield], so the shutdown part runs when [app] returns. *)
Definition lifespan {A} (app : M A) : M A :=
  lifespan_startup ;;
  a <- app ;;
  lifespan_shutdown ;;
  ret a.

(** ** More names for the properties *)

(** The next [n] driver calls go through. *)
Fixpoint calm (n : nat) (fs : list (option exn)) : bool :=
  match n, fs with
  | O, _ => true
  | S _, [] => true
  | S n', None :: fs' => calm n' fs'
  | S _, Some _ :: _ => false
  end.

(** Every row has an id the sequence has already passed. *)
Definition ids_below (w : World) : Prop :=
  Forall (fun r => row_id r < next_id w) (rows w).


(** The statement [insert_click] sends for [request]. *)
Definition request_insert (request : Request) (a : Address) : DriverCall :=
  CallExecute InsertClick
    [json_dumps (utm_params_of (query_params request)); host a;
     request_user_agent request; request_referrer request].




(** Printable ASCII. *)
Definition printable (c : char) : bool := (32 <=? c) && (c <=? 126).

(** A request with no headers. *)
Definition sample_request_bare : Request :=
  {| query_params := [(lit "utm_source", lit "ads")];
     client := Some sample_address;
     headers := [] |}.

(** A process started without [DATABASE_URL]. *)
Definition world_no_url : World :=
  {| DATABASE_URL := None; pool := None; table := None; next_id := 1; now := 1000;
     faults := []; trace := []; log := [] |}.

(** What [connect] keeps of the store: the sequence, the rows, and the
    table once it exists. *)
Definition keeps_data (w w' : World) : Prop :=
  next_id w' = next_id w /\ rows w' = rows w /\
  (forall rs, table w = Some rs -> table w' = Some rs).


(** The world after a driver call [c] that goes through, or that raises. *)
Definition passed (c : DriverCall) (w : World) : World :=
  with_faults (tl (faults w)) (with_trace (trace w ++ [c]) w).









(** A store with rows, for the samples. *)
Definition sample_row : Row :=
  {| row_id := 1; utm_params := lit "{}"; ip_address := lit "203.0.113.7";
     user_agent := []; referrer := []; created_at := 900 |}.

Definition world_with_rows (fs : list (option exn)) : World :=
  {| DATABASE_URL := Some (lit "postgresql://app@db.example/utm");
     pool := None;
     table := Some [sample_row]; next_id := 2; now := 1000;
     faults := fs; trace := []; log := [] |}.




(** * Proofs *)

(** ** Strings and dictionaries: basic facts *)

Lemma str_eqb_eq (a b : pystr) : str_eqb a b = true <-> a = b.
Proof.
  revert b; induction a as [|x a IH]; intros [|y b]; simpl; split; try congruence.
  - intros H. apply andb_true_iff in H as [Hx Hr].
    apply N.eqb_eq in Hx. apply IH in Hr. congruence.
  - intros H. injection H as -> ->. rewrite N.eqb_refl. simpl. now apply IH.
Qed.

Lemma str_eqb_refl (a : pystr) : str_eqb a a = true.
Proof. now apply str_eqb_eq. Qed.

Lemma str_eqb_neq (a b : pystr) : str_eqb a b = false <-> a <> b.
Proof.
  split.
  - intros H E. apply str_eqb_eq in E. congruence.
  - intros H. destruct (str_eqb a b) eqn:E; [|reflexivity].
    apply str_eqb_eq in E. contradiction.
Qed.

Section DictFacts.
Context {V : Type}.
Implicit Types (d : dict V) (k : pystr) (v : V).

Lemma dict_get_set_same d k v : dict_get k (dict_set k v d) = Some v.
Proof.
  induction d as [|[k' v'] d IH]; simpl.
  - now rewrite str_eqb_refl.
  - destruct (str_eqb k' k) eqn:E; simpl; rewrite E; auto.
Qed.

Lemma dict_get_set_other d k k' v :
  k <> k' -> dict_get k' (dict_set k v d) = dict_get k' d.
Proof.
  intros Hne. induction d as [|[k0 v0] d IH]; simpl.
  - apply str_eqb_neq in Hne. now rewrite Hne.
  - destruct (str_eqb k0 k) eqn:E; simpl.
    + apply str_eqb_eq in E. subst k0.
      apply str_eqb_neq in Hne. now rewrite Hne.
    + now rewrite IH.
Qed.

Lemma keys_dict_set_in d k v k' :
  In k' (keys (dict_set k v d)) <-> k' = k \/ In k' (keys d).
Proof.
  unfold keys. induction d as [|[k0 v0] d IH]; simpl.
  - intuition.
  - destruct (str_eqb k0 k) eqn:E; simpl.
    + apply str_eqb_eq in E. subst k0. intuition.
    + rewrite IH. intuition.
Qed.

Lemma dict_set_NoDup d k v : NoDup (keys d) -> NoDup (keys (dict_set k v d)).
Proof.
  unfold keys. induction d as [|[k0 v0] d IH]; simpl; intros H.
  - constructor; [intros []|constructor].
  - inversion H as [|? ? Hni Hnd]; subst.
    destruct (str_eqb k0 k) eqn:E; simpl.
    + now constructor.
    + constructor; [|now apply IH].
      intros Hin. apply (keys_dict_set_in d k v k0) in Hin.
      destruct Hin as [->|Hin]; [|contradiction].
      now rewrite str_eqb_refl in E.
Qed.

(** In a dictionary (distinct keys) membership of a pair is lookup. *)
Lemma dict_get_In d k v : NoDup (keys d) -> (In (k, v) d <-> dict_get k d = Some v).
Proof.
  unfold keys. induction d as [|[k0 v0] d IH]; simpl; intros H.
  - split; [intros []|discriminate].
  - inversion H as [|? ? Hni Hnd]; subst.
    destruct (str_eqb k0 k) eqn:E.
    + apply str_eqb_eq in E. subst k0. split.
      * intros [Heq|Hin]; [congruence|].
        exfalso. apply Hni. change k with (fst (k, v)). now apply in_map.
      * intros Heq. left. congruence.
    + apply str_eqb_neq in E. rewrite <- (IH Hnd). split.
      * intros [Heq|Hin]; [congruence|assumption].
      * intros Hin. now right.
Qed.

Lemma dict_get_None d k : dict_get k d = None <-> ~ In k (keys d).
Proof.
  unfold keys. induction d as [|[k0 v0] d IH]; simpl.
  - intuition.
  - destruct (str_eqb k0 k) eqn:E.
    + apply str_eqb_eq in E. subst. split; [discriminate|]. intros H. exfalso. auto.
    + apply str_eqb_neq in E. rewrite IH. intuition.
Qed.

(** Adding a key that is absent appends it. *)
Lemma dict_set_fresh d k v : ~ In k (keys d) -> dict_set k v d = d ++ [(k, v)].
Proof.
  unfold keys. induction d as [|[k0 v0] d IH]; simpl; intros H; [reflexivity|].
  destruct (str_eqb k0 k) eqn:E.
  - apply str_eqb_eq in E. subst. exfalso. auto.
  - f_equal. apply IH. intuition.
Qed.
End DictFacts.

(** ** The prefix filter *)

Lemma fold_set_NoDup (l : list (pystr * pystr)) (d : dict pystr) :
  NoDup (keys d) ->
  NoDup (keys (fold_left (fun d kv => dict_set (fst kv) (snd kv) d) l d)).
Proof.
  revert d; induction l as [|[k v] l IH]; simpl; intros d H; [assumption|].
  apply IH. now apply dict_set_NoDup.
Qed.

Lemma items_NoDup qp : NoDup (keys (items qp)).
Proof. apply fold_set_NoDup. constructor. Qed.

Lemma fold_set_get (l : list (pystr * pystr)) (d : dict pystr) k :
  dict_get k (fold_left (fun d kv => dict_set (fst kv) (snd kv) d) l d) =
  match last_value k l with
  | Some v => Some v
  | None => dict_get k d
  end.
Proof.
  revert d; induction l as [|[k' v'] l IH]; simpl; intros d; [reflexivity|].
  rewrite IH. destruct (last_value k l) as [v|]; [reflexivity|].
  destruct (str_eqb k' k) eqn:E.
  - apply str_eqb_eq in E. subst. apply dict_get_set_same.
  - apply str_eqb_neq in E. now apply dict_get_set_other.
Qed.

(** The mapping view holds, for each key, the value of its last pair. *)
Lemma items_get qp k : dict_get k (items qp) = last_value k qp.
Proof.
  unfold items, dict_of_pairs. rewrite fold_set_get.
  now destruct (last_value k qp).
Qed.

Lemma last_value_In k v qp : last_value k qp = Some v -> In (k, v) qp.
Proof.
  induction qp as [|[k' v'] qp IH]; simpl; [discriminate|].
  destruct (last_value k qp) as [v0|].
  - intros H. right. apply IH. assumption.
  - destruct (str_eqb k' k) eqn:E; [|discriminate].
    apply str_eqb_eq in E. intros H. left. congruence.
Qed.

Lemma last_value_None k qp : last_value k qp = None <-> ~ In k (map fst qp).
Proof.
  induction qp as [|[k' v'] qp IH]; simpl.
  - intuition.
  - destruct (last_value k qp) as [v0|].
    + split; [discriminate|]. intros H.
      assert (C : Some v0 = None) by (apply IH; intros C; apply H; now right).
      discriminate C.
    + destruct (str_eqb k' k) eqn:E.
      * apply str_eqb_eq in E. subst. split; [discriminate|]. intros H. exfalso. auto.
      * apply str_eqb_neq in E. split; [|reflexivity].
        intros _ [C|C]; [contradiction|]. now apply IH.
Qed.

Lemma keys_items qp k : In k (keys (items qp)) <-> In k (map fst qp).
Proof.
  destruct (dict_get k (items qp)) as [v|] eqn:E.
  - split; intros _.
    + rewrite items_get in E. apply last_value_In in E.
      change k with (fst (k, v)). now apply in_map.
    + apply (dict_get_In _ k v (items_NoDup qp)) in E.
      change k with (fst (k, v)). unfold keys. now apply in_map.
  - pose proof E as E'. apply dict_get_None in E.
    rewrite items_get in E'. apply last_value_None in E'. intuition.
Qed.

(** Filtering while inserting into a dictionary, over pairs with distinct
    keys that are new to the dictionary, appends the pairs that pass. *)
Lemma fold_filter_set (p : pystr * pystr -> bool) (l : list (pystr * pystr)) (d : dict pystr) :
  NoDup (map fst l) ->
  (forall k, In k (map fst l) -> ~ In k (keys d)) ->
  fold_left (fun d kv => if p kv then dict_set (fst kv) (snd kv) d else d) l d
  = d ++ filter p l.
Proof.
  revert d; induction l as [|[k v] l IH]; simpl; intros d Hnd Hfresh.
  - now rewrite app_nil_r.
  - inversion Hnd as [|? ? Hni Hnd']; subst.
    destruct (p (k, v)) eqn:Ep.
    + rewrite dict_set_fresh by (apply Hfresh; now left).
      rewrite IH; [now rewrite <- app_assoc| assumption |].
      intros k' Hin. unfold keys. rewrite map_app, in_app_iff. simpl.
      intros [C|[C|[]]]; [now apply (Hfresh k'); [right|] | congruence].
    + apply IH; [assumption|]. intros k' Hin. apply Hfresh. now right.
Qed.

(** The comprehension of [track_utm] is the filter of the mapping view. *)
Lemma utm_params_of_filter qp : utm_params_of qp = filter is_utm (items qp).
Proof.
  unfold utm_params_of.
  exact (fold_filter_set is_utm (items qp) [] (items_NoDup qp) (fun _ _ H => H)).
Qed.

Lemma filter_keys_NoDup (p : pystr * pystr -> bool) (d : dict pystr) :
  NoDup (keys d) -> NoDup (keys (filter p d)).
Proof.
  unfold keys. induction d as [|[k v] d IH]; simpl; intros H; [constructor|].
  inversion H as [|? ? Hni Hnd]; subst.
  destruct (p (k, v)); simpl; [|now apply IH].
  constructor; [|now apply IH].
  intros Hin. apply Hni. apply in_map_iff in Hin as [[k' v'] [Hk Hin]].
  simpl in Hk. subst k'. apply filter_In in Hin as [Hin _].
  change k with (fst (k, v')). now apply in_map.
Qed.

Lemma utm_params_of_NoDup qp : NoDup (keys (utm_params_of qp)).
Proof. rewrite utm_params_of_filter. apply filter_keys_NoDup, items_NoDup. Qed.

(** What the handler keeps: the [utm_] keys, each with its last value. *)
Lemma utm_params_of_In qp k v :
  In (k, v) (utm_params_of qp) <->
  startswith utm_prefix k = true /\ last_value k qp = Some v.
Proof.
  rewrite utm_params_of_filter, filter_In. unfold is_utm. simpl.
  rewrite (dict_get_In _ k v (items_NoDup qp)), items_get. intuition.
Qed.

Lemma items_distinct qp : NoDup (map fst qp) -> items qp = qp.
Proof.
  intros H. unfold items, dict_of_pairs.
  transitivity (filter (fun _ => true) qp).
  - exact (fold_filter_set (fun _ => true) qp [] H (fun _ _ C => C)).
  - clear. induction qp as [|x qp IH]; simpl; congruence.
Qed.

(** *** The comprehension over the pairs themselves

    The dictionary of [track_utm] does not depend on the mapping view: the
    same comprehension over the pairs of the query string, duplicates
    included, builds the same dictionary. *)

Lemma filter_dict_set k v (d : dict pystr) :
  filter is_utm (dict_set k v d) =
  if is_utm (k, v) then dict_set k v (filter is_utm d) else filter is_utm d.
Proof.
  induction d as [|[k0 v0] d IH]; simpl.
  - now destruct (is_utm (k, v)).
  - destruct (str_eqb k0 k) eqn:E.
    + apply str_eqb_eq in E. subst k0. simpl.
      change (is_utm (k, v0)) with (is_utm (k, v)).
      destruct (is_utm (k, v)); [|reflexivity].
      simpl. now rewrite str_eqb_refl.
    + simpl. rewrite IH.
      destruct (is_utm (k0, v0)), (is_utm (k, v)); simpl; rewrite ?E; reflexivity.
Qed.

Lemma fold_keep_utm (l : list (pystr * pystr)) (d : dict pystr) :
  fold_left keep_utm l (filter is_utm d) =
  filter is_utm (fold_left (fun d kv => dict_set (fst kv) (snd kv) d) l d).
Proof.
  revert d; induction l as [|[k v] l IH]; intros d; [reflexivity|].
  cbn [fold_left fst snd]. rewrite <- IH, filter_dict_set. reflexivity.
Qed.

Lemma comprehension_over_pairs qp : fold_left keep_utm qp [] = utm_params_of qp.
Proof.
  rewrite utm_params_of_filter. exact (fold_keep_utm qp []).
Qed.

(** ** The JSON text and its reading *)

Ltac cmp :=
  repeat match goal with
  | |- context [?a =? ?b] => destruct (N.eqb_spec a b); try lia
  | |- context [?a <? ?b] => destruct (N.ltb_spec a b); try lia
  | |- context [?a <=? ?b] => destruct (N.leb_spec a b); try lia
  | _ => progress cbn [andb orb]
  end.

Lemma unhexdigit_hexdigit d : d < 16 -> unhexdigit (hexdigit d) = Some d.
Proof.
  intros H. unfold hexdigit, unhexdigit.
  destruct (N.ltb_spec d 10); cmp; cbn [andb]; f_equal; lia.
Qed.

Lemma hex4_value n :
  n < 65536 ->
  (n / 4096 mod 16) * 4096 + (n / 256 mod 16) * 256 + (n / 16 mod 16) * 16 + n mod 16 = n.
Proof.
  intros H.
  pose proof (N.div_mod n 16 ltac:(lia)).
  pose proof (N.div_mod (n / 16) 16 ltac:(lia)).
  pose proof (N.div_mod (n / 256) 16 ltac:(lia)).
  pose proof (N.div_mod (n / 4096) 16 ltac:(lia)).
  assert (n / 256 = n / 16 / 16) by (rewrite N.Div0.div_div; reflexivity).
  assert (n / 4096 = n / 256 / 16) by (rewrite N.Div0.div_div; reflexivity).
  assert (n / 4096 / 16 = 0).
  { rewrite N.Div0.div_div. apply N.div_small. exact H. }
  pose proof (N.mod_lt n 16 ltac:(lia)).
  pose proof (N.mod_lt (n / 16) 16 ltac:(lia)).
  pose proof (N.mod_lt (n / 256) 16 ltac:(lia)).
  lia.
Qed.

Lemma decode_uXXXX_uescape n rest :
  n < 65536 -> decode_uXXXX (uescape n ++ rest) = Some (n, rest).
Proof.
  intros H. unfold uescape, hex4, decode_uXXXX, unhex4. cbn [app].
  rewrite !N.eqb_refl.
  rewrite !unhexdigit_hexdigit by (apply N.mod_lt; lia).
  now rewrite hex4_value.
Qed.

(** *** Surrogate pairs *)

Lemma lor_disjoint h l : l < 1024 -> N.lor (h * 1024) l = h * 1024 + l.
Proof.
  intros H.
  assert (Z : N.land (h * 1024) l = 0).
  { apply N.bits_inj_0. intros n. rewrite N.land_spec.
    change 1024 with (2 ^ 10) in *.
    destruct (N.lt_ge_cases n 10) as [Hn|Hn].
    - now rewrite N.mul_pow2_bits_low.
    - rewrite <- (N.mod_small l (2 ^ 10)) by exact H.
      rewrite N.mod_pow2_bits_high by exact Hn. apply andb_false_r. }
  now rewrite N.add_nocarry_lxor, N.lxor_lor.
Qed.

Lemma surrogate_halves c :
  65536 <= c -> c < 1114112 ->
  N.lor 55296 (N.land (N.shiftr (c - 65536) 10) 1023) = 55296 + (c - 65536) / 1024 /\
  N.lor 56320 (N.land (c - 65536) 1023) = 56320 + (c - 65536) mod 1024 /\
  (c - 65536) / 1024 < 1024.
Proof.
  intros Hlo Hhi.
  assert (Hq : (c - 65536) / 1024 < 1024) by (apply N.Div0.div_lt_upper_bound; lia).
  change 1023 with (N.ones 10). rewrite !N.land_ones, N.shiftr_div_pow2.
  change (2 ^ 10) with 1024.
  rewrite (N.mod_small _ _ Hq).
  change 55296 with (54 * 1024). change 56320 with (55 * 1024).
  rewrite !lor_disjoint; [auto | apply N.mod_lt; lia | exact Hq].
Qed.

Lemma surrogate_join c :
  65536 <= c -> c < 1114112 ->
  65536 + N.lor (N.shiftl (55296 + (c - 65536) / 1024 - 55296) 10)
                (56320 + (c - 65536) mod 1024 - 56320) = c.
Proof.
  intros Hlo Hhi.
  rewrite (N.add_comm 55296), (N.add_comm 56320), !N.add_sub.
  rewrite N.shiftl_mul_pow2. change (2 ^ 10) with 1024.
  rewrite lor_disjoint by (apply N.mod_lt; lia).
  pose proof (N.div_mod (c - 65536) 1024 ltac:(lia)). lia.
Qed.

Lemma high_half q : q < 1024 ->
  is_high_surrogate (55296 + q) = true /\ is_low_surrogate (55296 + q) = false.
Proof. intros H. unfold is_high_surrogate, is_low_surrogate. split; now cmp. Qed.

Lemma low_half m : m < 1024 -> is_low_surrogate (56320 + m) = true.
Proof. intros H. unfold is_low_surrogate. now cmp. Qed.

(** *** One character *)

Lemma decode_char_uescape n rest :
  n < 65536 ->
  decode_char (uescape n ++ rest) =
    if is_high_surrogate n then
      match decode_uXXXX rest with
      | Some (uni2, s4) =>
          if is_low_surrogate uni2
          then Some (65536 + N.lor (N.shiftl (n - 55296) 10) (uni2 - 56320), s4)
          else Some (n, rest)
      | None => Some (n, rest)
      end
    else Some (n, rest).
Proof.
  intros H. pose proof (decode_uXXXX_uescape rest H) as E.
  unfold decode_char. change (uescape n ++ rest) with (backslash :: 117 :: hex4 n ++ rest) in *.
  cbv beta iota. rewrite !N.eqb_refl. now rewrite E.
Qed.

Lemma decode_char_enc_char c rest :
  c < 1114112 ->
  (is_high_surrogate c = true -> low_escape_ahead rest = false) ->
  decode_char (enc_char true c ++ rest) = Some (c, rest).
Proof.
  intros Hc Hla. unfold enc_char, dquote, backslash.
  destruct (N.eqb_spec c 34) as [->|]; [reflexivity|].
  destruct (N.eqb_spec c 92) as [->|]; [reflexivity|].
  destruct (N.eqb_spec c 8) as [->|]; [reflexivity|].
  destruct (N.eqb_spec c 12) as [->|]; [reflexivity|].
  destruct (N.eqb_spec c 10) as [->|]; [reflexivity|].
  destruct (N.eqb_spec c 13) as [->|]; [reflexivity|].
  destruct (N.eqb_spec c 9) as [->|]; [reflexivity|].
  destruct (N.ltb_spec c 32) as [Hlt|Hge].
  { rewrite decode_char_uescape by lia.
    unfold is_high_surrogate. now cmp. }
  cbn [andb]. destruct (N.ltb_spec 126 c) as [Hnon|Hasc].
  - destruct (N.ltb_spec c 65536) as [Hb|Hs].
    + rewrite decode_char_uescape by exact Hb.
      destruct (is_high_surrogate c); [|reflexivity].
      specialize (Hla eq_refl). unfold low_escape_ahead in Hla.
      destruct (decode_uXXXX rest) as [[u2 s4]|]; [|reflexivity]. now rewrite Hla.
    + cbv zeta. destruct (surrogate_halves Hs Hc) as (E1 & E2 & Hq).
      rewrite E1, E2, <- app_assoc.
      pose proof (N.mod_lt (c - 65536) 1024 ltac:(lia)) as Hm.
      destruct (high_half Hq) as [Hh _].
      rewrite decode_char_uescape, Hh, decode_uXXXX_uescape, (low_half Hm).
      * now rewrite surrogate_join.
      * revert Hm. generalize ((c - 65536) mod 1024). intros; lia.
      * revert Hq. generalize ((c - 65536) / 1024). intros; lia.
  - unfold decode_char. cbn [app]. cbv beta iota. now cmp.
Qed.

Lemma low_escape_ahead_enc_char c rest :
  c < 1114112 -> is_low_surrogate c = false ->
  low_escape_ahead (enc_char true c ++ rest) = false.
Proof.
  intros Hc Hl. unfold enc_char, dquote, backslash.
  destruct (N.eqb_spec c 34) as [->|]; [reflexivity|].
  destruct (N.eqb_spec c 92) as [->|]; [reflexivity|].
  destruct (N.eqb_spec c 8) as [->|]; [reflexivity|].
  destruct (N.eqb_spec c 12) as [->|]; [reflexivity|].
  destruct (N.eqb_spec c 10) as [->|]; [reflexivity|].
  destruct (N.eqb_spec c 13) as [->|]; [reflexivity|].
  destruct (N.eqb_spec c 9) as [->|]; [reflexivity|].
  unfold low_escape_ahead.
  destruct (N.ltb_spec c 32) as [Hlt|Hge].
  { now rewrite decode_uXXXX_uescape by lia. }
  cbn [andb]. destruct (N.ltb_spec 126 c) as [Hnon|Hasc].
  - destruct (N.ltb_spec c 65536) as [Hb|Hs].
    + now rewrite decode_uXXXX_uescape by exact Hb.
    + cbv zeta. destruct (surrogate_halves Hs Hc) as (E1 & E2 & Hq).
      rewrite E1, <- app_assoc, decode_uXXXX_uescape.
      * apply (high_half Hq).
      * revert Hq. generalize ((c - 65536) / 1024). intros; lia.
  - unfold decode_uXXXX. cbn [app]. now cmp.
Qed.

Lemma enc_char_head c :
  exists c0 t, enc_char true c = c0 :: t /\ c0 <> dquote.
Proof.
  unfold enc_char, uescape, dquote, backslash.
  repeat match goal with
  | |- context [if ?b then _ else _] => destruct b eqn:?
  end; try (eexists; eexists; split; [reflexivity | discriminate]).
  exists c, []. split; [reflexivity|].
  apply N.eqb_neq. assumption.
Qed.

(** *** Strings *)

Lemma has_surrogate_pair_tail c s :
  has_surrogate_pair (c :: s) = false -> has_surrogate_pair s = false.
Proof.
  destruct s as [|c' s]; [reflexivity|]. cbn [has_surrogate_pair].
  intros H. apply orb_false_iff in H. tauto.
Qed.

Lemma has_surrogate_pair_head c c' s :
  has_surrogate_pair (c :: c' :: s) = false ->
  is_high_surrogate c = true -> is_low_surrogate c' = false.
Proof.
  cbn [has_surrogate_pair]. intros H Hh. apply orb_false_iff in H as [H _].
  now rewrite Hh in H.
Qed.

Lemma enc_body_cons c s : enc_body true (c :: s) = enc_char true c ++ enc_body true s.
Proof. reflexivity. Qed.

Lemma scan_enc_body s : forall fuel rest,
  text s -> (length s < fuel)%nat ->
  scan fuel (enc_body true s ++ dquote :: rest) = Some (s, rest).
Proof.
  induction s as [|c s IH]; intros fuel rest [Hr Hp] Hf;
    (destruct fuel as [|fuel]; [simpl in Hf; lia|]).
  - reflexivity.
  - inversion Hr as [|? ? Hc Hr']; subst.
    assert (Hla : is_high_surrogate c = true ->
                  low_escape_ahead (enc_body true s ++ dquote :: rest) = false).
    { intros Hh. destruct s as [|c' s']; [reflexivity|].
      rewrite enc_body_cons, <- app_assoc.
      apply low_escape_ahead_enc_char.
      - inversion Hr'; assumption.
      - exact (has_surrogate_pair_head _ _ _ Hp Hh). }
    rewrite enc_body_cons, <- app_assoc.
    pose proof (decode_char_enc_char (enc_body true s ++ dquote :: rest) Hc Hla) as D.
    destruct (enc_char_head c) as (c0 & t & E & Hne).
    rewrite E in *. cbn [app] in *. cbn [scan].
    destruct (N.eqb_spec c0 dquote); [contradiction|].
    rewrite D, IH; [reflexivity | | simpl in Hf; lia].
    split; [exact Hr' | exact (has_surrogate_pair_tail _ _ Hp)].
Qed.

Lemma length_enc_body s : (length s <= length (enc_body true s))%nat.
Proof.
  induction s as [|c s IH]; [apply Nat.le_refl|].
  rewrite enc_body_cons, length_app.
  destruct (enc_char_head c) as (c0 & t & E & _). rewrite E. simpl. lia.
Qed.

Lemma scanstring_enc_body s rest :
  text s -> scanstring (enc_body true s ++ dquote :: rest) = Some (s, rest).
Proof.
  intros H. unfold scanstring. apply scan_enc_body; [exact H|].
  rewrite length_app. pose proof (length_enc_body s). simpl. lia.
Qed.

(** *** Objects *)

Lemma join_members d : forall kv rest,
  join (lit ", ") (map (enc_member true (lit ": ")) (kv :: d)) ++ 125 :: rest
  = dquote :: members_tail kv d rest.
Proof.
  induction d as [|kv' d IH]; intros [k v] rest.
  - cbn [map join members_tail fst snd]. unfold enc_member, enc_str, dq.
    change (lit ": ") with [58; 32]. cbn [fst snd].
    repeat (rewrite <- ?app_assoc; cbn [app]). reflexivity.
  - change (map (enc_member true (lit ": ")) ((k, v) :: kv' :: d))
      with (enc_member true (lit ": ") (k, v) :: map (enc_member true (lit ": ")) (kv' :: d)).
    change (join (lit ", ") (?m :: map ?f (kv' :: d)))
      with (m ++ lit ", " ++ join (lit ", ") (map f (kv' :: d))).
    rewrite <- !app_assoc, IH.
    cbn [members_tail fst snd]. unfold enc_member, enc_str, dq.
    change (lit ": ") with [58; 32]. change (lit ", ") with [44; 32]. cbn [fst snd].
    repeat (rewrite <- ?app_assoc; cbn [app]). reflexivity.
Qed.

Lemma json_dumps_members kv d : json_dumps (kv :: d) = 123 :: dquote :: members_tail kv d [].
Proof.
  unfold json_dumps, json_dumps_with. change (lit "{") with [123]. change (lit "}") with [125].
  cbn [app]. f_equal. apply join_members.
Qed.

Lemma length_members_tail d : forall kv rest,
  (length d < length (members_tail kv d rest))%nat.
Proof.
  induction d as [|kv' d IH]; intros kv rest; cbn [members_tail].
  - rewrite length_app. simpl. lia.
  - rewrite length_app. cbn [length]. rewrite length_app. cbn [length].
    specialize (IH kv' rest). lia.
Qed.

Lemma parse_members_tail d : forall kv fuel acc rest,
  Forall (fun kv => text (fst kv) /\ text (snd kv)) (kv :: d) ->
  (length d < fuel)%nat ->
  parse_members fuel (members_tail kv d rest) acc = Some (acc ++ kv :: d, rest).
Proof.
  induction d as [|kv' d IH]; intros [k v] fuel acc rest Ht Hf;
    (destruct fuel as [|fuel]; [simpl in Hf; lia|]);
    inversion Ht as [|? ? [Hk Hv] Ht']; subst; cbn [fst snd] in *;
    cbn [members_tail fst snd parse_members];
    rewrite (scanstring_enc_body _ Hk);
    change (expect 58 (58 :: 32 :: dquote :: ?t)) with (Some (32 :: dquote :: t));
    cbv beta iota;
    change (expect dquote (32 :: dquote :: ?t)) with (Some t);
    cbv beta iota; rewrite (scanstring_enc_body _ Hv).
  - reflexivity.
  - change (skip_ws (44 :: ?t)) with (44 :: t). cbv beta iota.
    change (44 =? 125) with false. change (44 =? 44) with true. cbv beta iota.
    change (expect dquote (32 :: dquote :: ?t)) with (Some t). cbv beta iota.
    rewrite IH; [|exact Ht' | simpl in Hf; lia].
    now rewrite <- app_assoc.
Qed.

Lemma json_loads_object t :
  json_loads (123 :: dquote :: t) =
  match parse_members (length t) t [] with
  | Some (pairs, rest) =>
      match skip_ws rest with
      | [] => Some (dict_of_pairs pairs)
      | _ :: _ => None
      end
  | None => None
  end.
Proof. reflexivity. Qed.

(** Reading back what [json.dumps] wrote. *)
Lemma json_loads_dumps d : text_dict d -> json_loads (json_dumps d) = Some d.
Proof.
  intros [Hnd Ht]. destruct d as [|kv d]; [reflexivity|].
  rewrite json_dumps_members, json_loads_object.
  rewrite parse_members_tail; [|exact Ht | apply length_members_tail].
  cbn [skip_ws app]. f_equal. now apply items_distinct.
Qed.

(** ** Computations *)

Local Open Scope M_scope.

Lemma bind_Ok_inv {A B} (m : M A) (k : A -> M B) w b w' :
  bind m k w = (Ok b, w') ->
  exists a w1, m w = (Ok a, w1) /\ k a w1 = (Ok b, w').
Proof.
  unfold bind. destruct (m w) as [[a|e] w1]; [eauto | discriminate].
Qed.

(** *** Relations every step of a computation respects *)

Section Stable.
Variable R : World -> World -> Prop.
Hypothesis R_refl : forall w, R w w.
Hypothesis R_trans : forall a b c, R a b -> R b c -> R a c.

Lemma stable_ret {A} (a : A) : stable R (ret a).
Proof. intros w. apply R_refl. Qed.

Lemma stable_raise {A} e : stable R (@raise A e).
Proof. intros w. apply R_refl. Qed.

Lemma stable_get {A} (f : World -> A) : stable R (get f).
Proof. intros w. apply R_refl. Qed.

Lemma stable_modify f : (forall w, R w (f w)) -> stable R (modify f).
Proof. intros H w. apply H. Qed.

Lemma stable_bind {A B} (m : M A) (k : A -> M B) :
  stable R m -> (forall a, stable R (k a)) -> stable R (bind m k).
Proof.
  intros Hm Hk w. unfold bind. specialize (Hm w).
  destruct (m w) as [[a|e] w1]; simpl in *; [|assumption].
  eapply R_trans; [eassumption | apply Hk].
Qed.

Lemma stable_try_except {A} (m : M A) h :
  stable R m -> (forall e, stable R (h e)) -> stable R (try_except m h).
Proof.
  intros Hm Hh w. unfold try_except. specialize (Hm w).
  destruct (m w) as [[a|e] w1]; simpl in *; [assumption|].
  eapply R_trans; [eassumption | apply Hh].
Qed.

Lemma stable_finally {A} (m : M A) fin :
  stable R m -> stable R fin -> stable R (finally m fin).
Proof.
  intros Hm Hf w. unfold finally. specialize (Hm w).
  destruct (m w) as [r w1]; simpl in *. specialize (Hf w1).
  destruct (fin w1) as [[u|e] w2]; simpl in *; eapply R_trans; eassumption.
Qed.

Hypothesis R_log : forall l w, R w (with_log l w).
Hypothesis R_trace : forall t w, R w (with_trace t w).
Hypothesis R_faults : forall f w, R w (with_faults f w).

Lemma stable_emit lg lv m : stable R (emit lg lv m).
Proof.
  destruct lv; simpl; try apply stable_ret;
    apply stable_modify; intros w; apply R_log.
Qed.

Lemma stable_driver c : stable R (driver c).
Proof.
  unfold driver. apply stable_bind; [apply stable_modify; intros; apply R_trace|].
  intros _. apply stable_bind; [apply stable_get|].
  intros [|[e|] fs]; [apply stable_ret | |].
  - apply stable_bind; [apply stable_modify; intros; apply R_faults|].
    intros _. apply stable_raise.
  - apply stable_modify; intros; apply R_faults.
Qed.

Lemma stable_with_connection {A} (body : M A) :
  stable R body -> stable R (with_connection body).
Proof.
  intros Hb. unfold with_connection.
  apply stable_bind; [apply stable_get|].
  intros [p|]; [|apply stable_raise].
  apply stable_bind; [apply stable_driver|]. intros _.
  apply stable_finally; [assumption|].
  apply stable_modify; intros; apply R_trace.
Qed.

Lemma stable_create_pool dsn : stable R (create_pool dsn).
Proof.
  unfold create_pool. apply stable_bind; [apply stable_driver|].
  intros _. apply stable_ret.
Qed.

Lemma stable_ensure_table :
  (forall q, q <> InsertClick -> stable R (execute q [])) ->
  stable R ensure_table.
Proof.
  intros Hx. unfold ensure_table.
  repeat first
    [ apply stable_emit | apply stable_get | apply stable_raise
    | apply Hx; discriminate | apply stable_with_connection
    | apply stable_try_except | apply stable_bind
    | match goal with |- forall _, _ => intro end ].
Qed.

Lemma stable_connect_with url :
  (forall p, stable R (modify (with_pool p))) ->
  (forall q, q <> InsertClick -> stable R (execute q [])) ->
  stable R (connect_with url).
Proof.
  intros Hp Hx. unfold connect_with.
  repeat first
    [ apply stable_emit | apply Hp | apply stable_create_pool
    | apply stable_ensure_table; assumption | apply stable_bind
    | match goal with |- forall _, _ => intro end ].
Qed.

Lemma stable_connect :
  (forall p, stable R (modify (with_pool p))) ->
  (forall q, q <> InsertClick -> stable R (execute q [])) ->
  stable R connect.
Proof.
  intros Hp Hx. unfold connect. apply stable_bind; [apply stable_get|].
  intros [[|c u]|]; try (apply stable_connect_with; assumption);
    (apply stable_bind; [apply stable_emit | intros _; apply stable_raise]).
Qed.
End Stable.

(** *** The gateway *)


(** After a [connect] that returns, the pool is there. *)
Lemma connect_Ok_pool w r w' : connect w = (Ok r, w') -> exists p, pool w' = Some p.
Proof.
  unfold connect. intros H. apply bind_Ok_inv in H as (url & w0 & Hg & H).
  injection Hg as <- <-.
  assert (Hc : forall u, connect_with u w = (Ok r, w') -> exists p, pool w' = Some p).
  { clear H. intros u H. unfold connect_with in H.
    apply bind_Ok_inv in H as (? & w1 & _ & H).
    apply bind_Ok_inv in H as (p & w2 & _ & H).
    apply bind_Ok_inv in H as (? & w3 & Hm & H).
    injection Hm as _ <-.
    exists p.
    assert (S : stable (fun a b => pool b = pool a) ensure_table).
    { apply stable_ensure_table; try reflexivity.
      - intros a b c H1 H2. congruence.
      - intros q Hq. unfold execute. apply stable_bind; try reflexivity.
        + intros a b c H1 H2. congruence.
        + apply stable_driver; try reflexivity. intros a b c H1 H2. congruence.
        + intros _ w4. unfold bind, get. simpl.
          destruct q; destruct (table w4); reflexivity. }
    specialize (S (with_pool (Some p) w2)). rewrite H in S. exact S. }
  destruct (DATABASE_URL w) as [[|c u]|]; try discriminate H; eauto.
Qed.

(** The insert itself: what it returns and what it leaves, case by case. *)
Lemma insert_body_cases u ip ua ref w :
  match insert_body u ip ua ref w with
  | (Ok _, w') =>
      exists rs, table w = Some rs /\
        table w' = Some (rs ++ [new_row w u ip ua ref]) /\
        next_id w' = next_id w + 1 /\
        trace w' = trace w ++ [CallAcquire;
                                CallExecute InsertClick [json_dumps u; ip; ua; ref];
                                CallRelease] /\
        log w' = log w ++ [{| logger := RootLogger; level := INFO;
                              message := Text (lit "Successfully inserted UTM click data into utm_clicks table") |}] /\
        pool w' = pool w
  | (Raise e, w') =>
      table w' = table w /\ next_id w' = next_id w /\ log w' = log w /\ pool w' = pool w /\
      ((pool w = None /\ trace w' = trace w) \/ trace w' = trace w ++ [CallAcquire] \/
       trace w' = trace w ++ [CallAcquire;
                               CallExecute InsertClick [json_dumps u; ip; ua; ref];
                               CallRelease])
  end.
Proof.
  unfold insert_body, with_connection, execute, driver, finally, bind, get, modify,
    emit, raise, ret.
  destruct (pool w) as [p|] eqn:Hp; simpl; [|rewrite Hp; auto 10].
  destruct (table w) as [rs|] eqn:Ht;
    destruct (faults w) as [|[e1|] [|[e2|] fs]] eqn:Hf;
    repeat (progress (simpl; rewrite ?Hp, ?Hf, ?Ht, <- ?app_assoc));
    eauto 12.
Qed.

Lemma insert_statement_eq u ip ua ref w :
  insert_statement u ip ua ref w =
  match insert_body u ip ua ref w with
  | (Ok a, w') => (Ok a, w')
  | (Raise e, w') =>
      (Raise e, add_log RootLogger ERROR (error_text (lit "Database insert failed: ") e) w')
  end.
Proof.
  unfold insert_statement, try_except.
  destruct (insert_body u ip ua ref w) as [[a|e] w']; reflexivity.
Qed.

Lemma insert_click_eq u ip ua ref w :
  insert_click u ip ua ref w =
  match lazy_init w with
  | (Ok _, w0) => insert_statement u ip ua ref w0
  | (Raise e, w0) => (Raise e, w0)
  end.
Proof. reflexivity. Qed.

Lemma lazy_init_eq w :
  lazy_init w =
  match pool w with
  | Some _ => (Ok tt, w)
  | None =>
      match connect w with
      | (Ok _, w0) => (Ok tt, w0)
      | (Raise e, w0) => (Raise e, w0)
      end
  end.
Proof.
  unfold lazy_init, bind, get. destruct (pool w); [reflexivity|].
  destruct (connect w) as [[r|e] w0]; reflexivity.
Qed.


Lemma lazy_init_Ok_pool w r w0 : lazy_init w = (Ok r, w0) -> exists p, pool w0 = Some p.
Proof.
  rewrite lazy_init_eq. destruct (pool w) as [p|] eqn:Hp.
  - intros H. injection H as _ <-. eauto.
  - destruct (connect w) as [[c|e] w1] eqn:Hc; [|discriminate].
    intros H. injection H as _ <-. eapply connect_Ok_pool. eassumption.
Qed.



(** *** The track route *)

Lemma track_body_no_client req w :
  client req = None -> track_body req w = (Raise (NoneType_has_no "host"), w).
Proof. intros H. unfold track_body, bind, client_host. now rewrite H. Qed.

Lemma track_utm_raise req w e w1 :
  track_body req w = (Raise e, w1) ->
  track_utm req w =
    (Ok error_response,
     add_log ModuleLogger ERROR (error_text (lit "Unexpected error in /track: ") e) w1).
Proof. intros H. unfold track_utm, try_except. now rewrite H. Qed.

(** With a peer address the handler is its call to the gateway and one of
    two pages. *)
Lemma track_utm_client req a w :
  client req = Some a ->
  track_utm req w =
  match gateway_call req a (at_insert req a w) with
  | (Ok _, w1) =>
      (Ok (HTMLResponse (success_page (utm_params_of (query_params req))) 200),
       add_log ModuleLogger INFO (Text (lit "UTM click successfully logged to database")) w1)
  | (Raise e, w1) =>
      (Ok error_response,
       add_log RootLogger ERROR (error_text (lit "Database insert failed: ") e) w1)
  end.
Proof.
  intros H.
  unfold track_utm, try_except, track_body, store_click, try_except, bind, client_host,
    gateway_call, at_insert, request_user_agent, request_referrer, add_log, ret.
  rewrite H. simpl.
  match goal with |- context [insert_click ?u ?i ?a ?r ?w] =>
    destruct (insert_click u i a r w) as [[[]|e] w1] end; reflexivity.
Qed.

(** *** The two pages *)


Lemma occurs_join sep (l : list pystr) x : In x l -> occurs x (join sep l).
Proof.
  induction l as [|y l IH]; intros Hin; [contradiction|].
  destruct Hin as [->|Hin].
  - destruct l as [|z l]; simpl.
    + exists [], []. now rewrite app_nil_r.
    + exists [], (sep ++ join sep (z :: l)). reflexivity.
  - destruct (IH Hin) as (b & a & E). destruct l as [|z l]; [contradiction|].
    exists (y ++ sep ++ b), a.
    change (join sep (y :: z :: l)) with (y ++ sep ++ join sep (z :: l)).
    rewrite E. now rewrite <- !app_assoc.
Qed.

Lemma occurs_success_page u x : In x (utm_html_items u) -> occurs x (success_page u).
Proof.
  intros Hin. apply (occurs_join (nl ++ lit "            ")) in Hin.
  destruct Hin as (b & a & E).
  exists (template_before ++ b), (a ++ template_after).
  unfold success_page, html_template_format. rewrite E.
  now rewrite <- !app_assoc.
Qed.

(** A 200 answer of the track route comes from a gateway call that
    returned, and is the success page of the filtered parameters. *)
Lemma track_utm_200 req w resp w' :
  track_utm req w = (Ok resp, w') ->
  status_code resp = 200 ->
  exists a w1,
    client req = Some a /\
    gateway_call req a (at_insert req a w) = (Ok tt, w1) /\
    resp = HTMLResponse (success_page (utm_params_of (query_params req))) 200 /\
    rows w' = rows w1.
Proof.
  intros H Hs. destruct (client req) as [a|] eqn:Hc.
  - rewrite (track_utm_client req w Hc) in H.
    destruct (gateway_call req a (at_insert req a w)) as [[[]|e] w1] eqn:Hg;
      injection H as <- <-.
    + exists a, w1. auto.
    + change (status_code error_response) with 500 in Hs. discriminate Hs.
  - rewrite (track_utm_raise _ _ (track_body_no_client req w Hc)) in H.
    injection H as <- <-.
    change (status_code error_response) with 500 in Hs. discriminate Hs.
Qed.



(** ** The properties *)




(** C3, as stated, fails: of two pairs with the same [utm_] key the first
    is not kept. *)
Lemma duplicate_key_not_kept :
  In (lit "utm_source", lit "a") (query_params sample_request_duplicate) /\
  startswith utm_prefix (lit "utm_source") = true /\
  utm_params_of (query_params sample_request_duplicate) = [(lit "utm_source", lit "b")] /\
  ~ In (lit "utm_source", lit "a")
       (utm_params_of (query_params sample_request_duplicate)).
Proof.
  split; [now left|]. split; [reflexivity|]. split; [reflexivity|].
  vm_compute. intros [H|[]]. discriminate H.
Qed.

(** C3, as amended.  The handler keeps every key that begins with [utm_]
    once, with the value of the key's last pair; when the keys of the query
    string are distinct it keeps all the pairs with the prefix, in their
    order. *)
Theorem utm_keys_kept_once qp :
  NoDup (keys (utm_params_of qp)) /\
  (forall k v, In (k, v) (utm_params_of qp) <->
     startswith utm_prefix k = true /\ last_value k qp = Some v) /\
  (forall k v, In (k, v) qp -> startswith utm_prefix k = true ->
     exists v', In (k, v') (utm_params_of qp)) /\
  (NoDup (map fst qp) -> utm_params_of qp = filter is_utm qp) /\
  utm_params_of qp = fold_left keep_utm qp [].
Proof.
  split; [apply utm_params_of_NoDup|]. split; [apply utm_params_of_In|].
  split; [|split].
  - intros k v Hin Hk. destruct (last_value k qp) as [v'|] eqn:E.
    + exists v'. apply utm_params_of_In. auto.
    + apply last_value_None in E. exfalso. apply E.
      change k with (fst (k, v)). now apply in_map.
  - intros Hnd. rewrite utm_params_of_filter. now rewrite items_distinct.
  - symmetry. apply comprehension_over_pairs.
Qed.



(** C5, as stated, fails: a value made of the two halves of a surrogate
    pair and a value made of the one character they encode have the same
    JSON text, so no reading of the stored document gives both back; the
    decoder returns the character. *)
Lemma surrogate_halves_collide :
  sample_params_halves <> sample_params_astral /\
  json_dumps sample_params_halves = json_dumps sample_params_astral /\
  json_loads (json_dumps sample_params_halves) = Some sample_params_astral /\
  json_loads (json_dumps sample_params_halves) <> Some sample_params_halves /\
  (forall loads : pystr -> option (dict pystr),
     loads (json_dumps sample_params_halves) = Some sample_params_halves ->
     loads (json_dumps sample_params_astral) <> Some sample_params_astral).
Proof.
  assert (Hne : sample_params_halves <> sample_params_astral) by discriminate.
  assert (He : json_dumps sample_params_halves = json_dumps sample_params_astral)
    by (vm_compute; reflexivity).
  split; [exact Hne|]. split; [exact He|]. split; [vm_compute; reflexivity|]. split.
  - vm_compute. discriminate.
  - intros loads H1 H2. rewrite <- He, H1 in H2. injection H2 as H2. now apply Hne.
Qed.

(** C5, as amended.  For a mapping of strings in which no high surrogate
    is followed at once by a low surrogate, the JSON text written for the
    insert reads back as the same mapping: the same keys in the same order,
    each with its value unchanged. *)
Theorem json_round_trip d :
  text_dict d ->
  json_loads (json_dumps d) = Some d /\
  (forall d', json_loads (json_dumps d) = Some d' ->
     forall k, dict_get k d' = dict_get k d).
Proof.
  intros H. pose proof (json_loads_dumps H) as E. split; [exact E|].
  intros d' E' k. rewrite E in E'. now injection E' as <-.
Qed.

Lemma json_round_trip_witness :
  text_dict sample_params /\
  json_loads (json_dumps sample_params) = Some sample_params.
Proof.
  assert (H : text_dict sample_params).
  { split.
    - apply NoDup_cons; [intros [H|[]]; discriminate H|].
      apply NoDup_cons; [intros []|apply NoDup_nil].
    - repeat constructor. }
  split; [exact H | apply (json_round_trip H)].
Defined.

(** C6. A failure of the handler outside the storage call is caught at the
    outer boundary and becomes the error page with status 500, the page and
    status a storage failure gets; the page is fixed text, and the handler
    always returns an HTML response. *)
Theorem track_unexpected_failure req w e w1 :
  track_body req w = (Raise e, w1) ->
  track_utm req w =
    (Ok error_response,
     add_log ModuleLogger ERROR (error_text (lit "Unexpected error in /track: ") e) w1) /\
  status_code error_response = 500 /\
  content error_response = error_html /\
  (forall req' a' w2 e' w3,
      client req' = Some a' ->
      gateway_call req' a' (at_insert req' a' w2) = (Raise e', w3) ->
      fst (track_utm req' w2) = fst (track_utm req w)) /\
  (forall req' w2, exists resp w3,
      track_utm req' w2 = (Ok resp, w3) /\
      media_type resp = lit "text/html" /\
      (resp = error_response \/
       resp = HTMLResponse (success_page (utm_params_of (query_params req'))) 200)).
Proof.
  intros H. rewrite (track_utm_raise _ _ H). repeat split.
  - intros req' a' w2 e' w3 Hc Hg. now rewrite (track_utm_client req' w2 Hc), Hg.
  - intros req' w2. destruct (client req') as [a'|] eqn:Hc.
    + rewrite (track_utm_client req' w2 Hc).
      destruct (gateway_call req' a' (at_insert req' a' w2)) as [[[]|e'] w3];
        eexists; eexists; (split; [reflexivity|]); split; auto.
    + rewrite (track_utm_raise _ _ (track_body_no_client req' w2 Hc)).
      eexists; eexists; (split; [reflexivity|]); split; auto.
Qed.

Lemma track_unexpected_failure_witness :
  track_body sample_request_no_client (world_started []) =
    (Raise (NoneType_has_no "host"), world_started []) /\
  track_utm sample_request_no_client (world_started []) =
    (Ok error_response,
     add_log ModuleLogger ERROR
       (error_text (lit "Unexpected error in /track: ") (NoneType_has_no "host"))
       (world_started [])) /\
  status_code error_response = 500.
Proof.
  pose proof (@track_unexpected_failure sample_request_no_client (world_started [])
                (NoneType_has_no "host") (world_started []) eq_refl) as H.
  split; [reflexivity|]. split; [apply H | apply H].
Defined.

(** C7. The health route returns status 200 with the JSON body
    [{"status":"ok"}] in every world, and leaves the world as it was: it
    makes no call to the gateway or the driver. *)
Theorem health_always_ok w :
  health_route w =
    (Ok {| status_code := 200; media_type := lit "application/json";
           content := lit "{" ++ dq ++ lit "status" ++ dq ++ lit ":" ++
                      dq ++ lit "ok" ++ dq ++ lit "}" |}, w) /\
  forall w', fst (health_route w') = fst (health_route w).
Proof.
  unfold health_route, health_check, bind, ret. split.
  - unfold JSONResponse. f_equal.
  - intros w'. reflexivity.
Qed.

(** C8, as stated, fails: with no pool and a driver that refuses to make
    one, the append raises the driver's error although no insert was sent,
    and the log has no error record. *)
Lemma append_init_error_unlogged :
  let w := world_unconnected [Some sample_exn] in
  let w' := snd (insert_click [] (host sample_address) [] [] w) in
  insert_click [] (host sample_address) [] [] w = (Raise sample_exn, w') /\
  pool w = None /\
  trace w' = [CallCreatePool (lit "postgresql://app@db.example/utm")] /\
  log w' = [{| logger := RootLogger; level := INFO;
               message := Connecting (lit "postgresql://app@db.example/utm") |}] /\
  ~ In {| logger := RootLogger; level := ERROR;
          message := error_text (lit "Database insert failed: ") sample_exn |} (log w').
Proof.
  cbv zeta. split; [vm_compute; reflexivity|]. split; [reflexivity|].
  split; [vm_compute; reflexivity|]. split; [vm_compute; reflexivity|].
  vm_compute. intros [H|[]]. discriminate H.
Qed.

(** C8, as amended.  The append first makes sure of the pool: when the pool
    is there nothing happens, when it is not, [connect] runs, and an error
    of [connect] goes to the caller as it is, with no record of the append's
    own.  Then the insert runs once: if it returns, the append returns; if
    it raises, the append logs the error's type name and message and raises
    the same error. *)
Theorem append_outcomes u ip ua ref w :
  match lazy_init w with
  | (Raise e, w0) =>
      pool w = None /\ connect w = (Raise e, w0) /\
      insert_click u ip ua ref w = (Raise e, w0)
  | (Ok _, w0) =>
      (exists p, pool w0 = Some p) /\
      ((exists p, pool w = Some p /\ w0 = w) \/
       (pool w = None /\ exists r, connect w = (Ok r, w0))) /\
      match insert_body u ip ua ref w0 with
      | (Ok a, w') =>
          insert_click u ip ua ref w = (Ok a, w') /\
          trace w' = trace w0 ++ [CallAcquire;
                                   CallExecute InsertClick [json_dumps u; ip; ua; ref];
                                   CallRelease]
      | (Raise e, w') =>
          insert_click u ip ua ref w =
            (Raise e,
             add_log RootLogger ERROR (error_text (lit "Database insert failed: ") e) w') /\
          (trace w' = trace w0 ++ [CallAcquire] \/
           trace w' = trace w0 ++ [CallAcquire;
                                    CallExecute InsertClick [json_dumps u; ip; ua; ref];
                                    CallRelease])
      end
  end.
Proof.
  rewrite insert_click_eq.
  destruct (lazy_init w) as [[r0|e0] w0] eqn:Hl.
  - pose proof (lazy_init_Ok_pool _ Hl) as Hp. split; [exact Hp|]. split.
    + rewrite lazy_init_eq in Hl. destruct (pool w) as [p|] eqn:Hpw.
      * left. exists p. split; [reflexivity|]. injection Hl as _ <-. reflexivity.
      * right. split; [reflexivity|].
        destruct (connect w) as [[r|e] w1]; [|discriminate].
        injection Hl as _ <-. eauto.
    + rewrite insert_statement_eq.
      pose proof (insert_body_cases u ip ua ref w0) as Hb.
      destruct (insert_body u ip ua ref w0) as [[a|e] w'].
      * destruct Hb as (rs & _ & _ & _ & Ht & _). auto.
      * split; [reflexivity|].
        destruct Hb as (_ & _ & _ & _ & [[Hn _]|[Ht|Ht]]); auto.
        destruct Hp as (p & Hp). congruence.
  - rewrite lazy_init_eq in Hl. destruct (pool w) as [p|] eqn:Hpw; [discriminate|].
    destruct (connect w) as [[r|e] w1]; [discriminate|].
    injection Hl as <- <-. auto.
Qed.

(** C9. Without a peer address the handler raises at [request.client.host]
    before the gateway is called; the outer boundary answers with the error
    page and status 500, and the store, the pool and the driver are
    untouched: no row is written. *)
Theorem track_no_client req w :
  client req = None ->
  exists w',
    track_utm req w = (Ok error_response, w') /\
    status_code error_response = 500 /\
    track_body req w = (Raise (NoneType_has_no "host"), w) /\
    w' = add_log ModuleLogger ERROR
           (error_text (lit "Unexpected error in /track: ") (NoneType_has_no "host")) w /\
    trace w' = trace w /\ faults w' = faults w /\ table w' = table w /\
    pool w' = pool w /\ rows w' = rows w.
Proof.
  intros H. pose proof (track_body_no_client req w H) as Hb.
  rewrite (track_utm_raise _ _ Hb). eexists. split; [reflexivity|].
  repeat split. exact Hb.
Qed.

Lemma track_no_client_witness :
  client sample_request_no_client = None /\
  exists w',
    track_utm sample_request_no_client (world_started []) = (Ok error_response, w') /\
    trace w' = [] /\ rows w' = [].
Proof.
  destruct (@track_no_client sample_request_no_client (world_started []) eq_refl)
    as (w' & H1 & _ & _ & _ & H2 & _ & _ & _ & H3).
  split; [reflexivity|]. exists w'. split; [exact H1|]. split; [exact H2 | exact H3].
Defined.

(** C10. Each captured pair is in the success page as the text
    [<li>• key: value</li>], key and value as they came: nothing is
    escaped. *)
Theorem page_embeds_verbatim req w resp w' k v :
  track_utm req w = (Ok resp, w') ->
  status_code resp = 200 ->
  In (k, v) (utm_params_of (query_params req)) ->
  occurs (lit "<li>" ++ bullet ++ lit " " ++ k ++ lit ": " ++ v ++ lit "</li>")
    (content resp) /\
  content resp =
    html_template_format
      (join (nl ++ lit "            ")
         (map li_format (utm_params_of (query_params req)))).
Proof.
  intros H Hs Hin.
  destruct (track_utm_200 _ _ H Hs) as (a & w1 & _ & _ & Hresp & _). subst resp.
  change (content (HTMLResponse ?p 200)) with p.
  assert (Hi : utm_html_items (utm_params_of (query_params req))
               = map li_format (utm_params_of (query_params req))).
  { destruct (utm_params_of (query_params req)); [contradiction|reflexivity]. }
  split.
  - apply occurs_success_page. rewrite Hi.
    change (lit "<li>" ++ bullet ++ lit " " ++ k ++ lit ": " ++ v ++ lit "</li>")
      with (li_format (k, v)).
    now apply in_map.
  - unfold success_page. now rewrite Hi.
Qed.

Lemma page_embeds_verbatim_witness :
  In (lit "utm_term", lit "<b>bold</b>")
     (utm_params_of (query_params sample_request_markup)) /\
  occurs (lit "<li>" ++ bullet ++ lit " utm_term: <b>bold</b></li>")
    (content (HTMLResponse
                (success_page (utm_params_of (query_params sample_request_markup))) 200)).
Proof.
  assert (Hin : In (lit "utm_term", lit "<b>bold</b>")
                  (utm_params_of (query_params sample_request_markup)))
    by (vm_compute; now left).
  split; [exact Hin|].
  pose proof (@page_embeds_verbatim sample_request_markup (world_started [])
                (HTMLResponse
                   (success_page (utm_params_of (query_params sample_request_markup))) 200)
                (snd (track_utm sample_request_markup (world_started [])))
                (lit "utm_term") (lit "<b>bold</b>")) as H.
  apply H; [vm_compute; reflexivity | reflexivity | exact Hin].
Defined.

(** The scenario of the specification:
    [GET /track?utm_source=ads&utm_medium=cpc&ref=ignored]. *)
Example scenario_ads :
  utm_params_of (query_params sample_request)
    = [(lit "utm_source", lit "ads"); (lit "utm_medium", lit "cpc")] /\
  json_dumps (utm_params_of (query_params sample_request))
    = lit "{" ++ dq ++ lit "utm_source" ++ dq ++ lit ": " ++ dq ++ lit "ads" ++ dq ++
      lit ", " ++ dq ++ lit "utm_medium" ++ dq ++ lit ": " ++ dq ++ lit "cpc" ++ dq ++
      lit "}" /\
  utm_html_items (utm_params_of (query_params sample_request))
    = [lit "<li>" ++ bullet ++ lit " utm_source: ads</li>";
       lit "<li>" ++ bullet ++ lit " utm_medium: cpc</li>"] /\
  fst (track_utm sample_request (world_unconnected []))
    = Ok (HTMLResponse
            (success_page [(lit "utm_source", lit "ads"); (lit "utm_medium", lit "cpc")])
            200).
Proof. repeat split; vm_compute; reflexivity. Qed.

(** * Further properties *)

Local Open Scope M_scope.
Unset Implicit Arguments.

(** ** Steps of a computation *)

Lemma bind_Ok {A B} (m : M A) (k : A -> M B) w a w1 :
  m w = (Ok a, w1) -> bind m k w = k a w1.
Proof. unfold bind. now intros ->. Qed.

Lemma bind_Raise {A B} (m : M A) (k : A -> M B) w e w1 :
  m w = (Raise e, w1) -> bind m k w = (Raise e, w1).
Proof. unfold bind. now intros ->. Qed.



Lemma emit_logs lg lv m w :
  lv <> DEBUG -> emit lg lv m w = (Ok tt, add_log lg lv m w).
Proof. destruct lv; [contradiction| |]; reflexivity. Qed.

Lemma world_faults_nil w :
  faults w = [] -> with_faults [] w = w.
Proof. destruct w. simpl. now intros ->. Qed.

Lemma driver_calm c w n :
  calm (S n) (faults w) = true -> driver c w = (Ok tt, passed c w).
Proof.
  intros H. unfold driver, passed, bind, get, modify, ret. simpl.
  destruct (faults w) as [|[e|] fs] eqn:Hf; simpl.
  - rewrite world_faults_nil; [reflexivity | exact Hf].
  - discriminate H.
  - reflexivity.
Qed.

Lemma driver_fault c w e fs :
  faults w = Some e :: fs -> driver c w = (Raise e, passed c w).
Proof.
  intros Hf. unfold driver, passed, bind, get, modify, raise. simpl.
  now rewrite Hf.
Qed.



Lemma skipn_tl {A} n (l : list A) : skipn (S n) l = skipn n (tl l).
Proof. destruct l; [now destruct n | reflexivity]. Qed.








(** *** [connect], step by step *)









Lemma keeps_data_refl w : keeps_data w w.
Proof. unfold keeps_data. auto. Qed.

Lemma keeps_data_same w w' :
  next_id w' = next_id w -> table w' = table w -> keeps_data w w'.
Proof. unfold keeps_data, rows. intros -> ->. auto. Qed.

Lemma keeps_data_trans a b c : keeps_data a b -> keeps_data b c -> keeps_data a c.
Proof.
  unfold keeps_data. intros (H1 & H2 & H3) (H4 & H5 & H6).
  repeat split; try congruence. intros rs H. apply H6, H3, H.
Qed.

Lemma keeps_data_execute q : q <> InsertClick -> stable keeps_data (execute q []).
Proof.
  intros Hq. unfold execute.
  apply (@stable_bind keeps_data keeps_data_trans).
  - apply (@stable_driver keeps_data keeps_data_refl keeps_data_trans);
      intros; apply keeps_data_same; reflexivity.
  - intros _ w. unfold bind, get.
    destruct q; [| |contradiction]; destruct (table w) as [rs|] eqn:Ht; simpl;
      unfold keeps_data, rows; simpl; rewrite ?Ht; repeat split; auto; discriminate.
Qed.

Lemma connect_keeps_data w : keeps_data w (snd (connect w)).
Proof.
  apply (@stable_connect keeps_data keeps_data_refl keeps_data_trans).
  - intros; apply keeps_data_same; reflexivity.
  - intros; apply keeps_data_same; reflexivity.
  - intros; apply keeps_data_same; reflexivity.
  - intros p w0. apply keeps_data_same; reflexivity.
  - apply keeps_data_execute.
Qed.

(** ** Properties of [connect] *)

(** X1. Without a connection string ([DATABASE_URL] unset or empty)
    [connect] logs the error and raises [ValueError]; nothing else of the
    world changes and the driver is not called.  A track request served in
    that state, with no pool, answers 500, again without any driver call. *)
Theorem connect_without_url w :
  DATABASE_URL w = None \/ DATABASE_URL w = Some [] ->
  connect w =
    (Raise (ValueError "DATABASE_URL environment variable is required"),
     add_log RootLogger ERROR
       (Text (lit "DATABASE_URL environment variable is required but not set")) w) /\
  (pool w = None ->
   forall req, exists w',
     track_utm req w = (Ok error_response, w') /\
     trace w' = trace w /\ pool w' = None /\ table w' = table w).
Proof.
  intros Hu.
  assert (Hc : forall w0, DATABASE_URL w0 = DATABASE_URL w -> connect w0 =
    (Raise (ValueError "DATABASE_URL environment variable is required"),
     add_log RootLogger ERROR
       (Text (lit "DATABASE_URL environment variable is required but not set")) w0)).
  { intros w0 E. unfold connect.
    rewrite (bind_Ok _ _ _ _ _ (eq_refl : get DATABASE_URL w0 = (Ok (DATABASE_URL w0), w0))).
    rewrite E. destruct Hu as [Hu|Hu]; rewrite Hu; reflexivity. }
  split; [apply Hc; reflexivity|]. intros Hp req.
  destruct (client req) as [a|] eqn:Ha.
  - rewrite (track_utm_client req w Ha). unfold gateway_call.
    rewrite insert_click_eq, lazy_init_eq.
    change (pool (at_insert req a w)) with (pool w). rewrite Hp.
    rewrite (Hc (at_insert req a w) eq_refl).
    eexists. split; [reflexivity|]. repeat apply conj; try reflexivity. exact Hp.
  - rewrite (track_utm_raise _ _ (track_body_no_client req w Ha)).
    eexists. split; [reflexivity|]. repeat apply conj; try reflexivity. exact Hp.
Qed.

Lemma connect_without_url_witness :
  (DATABASE_URL world_no_url = None \/ DATABASE_URL world_no_url = Some []) /\
  fst (connect world_no_url) =
    Raise (ValueError "DATABASE_URL environment variable is required").
Proof.
  assert (H : DATABASE_URL world_no_url = None \/ DATABASE_URL world_no_url = Some [])
    by (left; reflexivity).
  split; [exact H|].
  destruct (connect_without_url world_no_url H) as [E _]. now rewrite E.
Defined.











(** X7. However [connect] ends, the data is as it was: the sequence of ids
    has not moved, the table has the rows it had, and a table that existed
    still exists ([CREATE TABLE IF NOT EXISTS] on a table with rows keeps
    them). *)
Theorem connect_keeps_the_data w :
  next_id (snd (connect w)) = next_id w /\
  rows (snd (connect w)) = rows w /\
  (forall rs, table w = Some rs -> table (snd (connect w)) = Some rs).
Proof. exact (connect_keeps_data w). Qed.

(** ** [disconnect] *)

(** X8. [disconnect] on a gateway that was never connected, or that is
    already disconnected, does nothing: no driver call, the world as it
    was. *)
Theorem disconnect_without_pool w :
  pool w = None -> disconnect w = (Ok tt, w).
Proof.
  intros Hp. unfold disconnect.
  rewrite (bind_Ok _ _ _ _ _ (eq_refl : get pool w = (Ok (pool w), w))).
  now rewrite Hp.
Qed.

Lemma disconnect_without_pool_witness :
  pool (world_unconnected [Some sample_exn]) = None /\
  disconnect (world_unconnected [Some sample_exn])
    = (Ok tt, world_unconnected [Some sample_exn]).
Proof.
  split; [reflexivity|].
  exact (disconnect_without_pool (world_unconnected [Some sample_exn]) eq_refl).
Defined.

(** X9. [disconnect] with a pool closes it with one driver call and clears
    [db.pool]; the table is not touched, and a second [disconnect] is
    harmless: it changes nothing. *)
Theorem disconnect_closes_once w p :
  pool w = Some p ->
  calm 1 (faults w) = true ->
  exists w',
    disconnect w = (Ok tt, w') /\
    pool w' = None /\
    trace w' = trace w ++ [CallClose] /\
    table w' = table w /\
    next_id w' = next_id w /\
    (disconnect ;; disconnect) w = (Ok tt, w').
Proof.
  intros Hp Hc.
  assert (E : disconnect w = (Ok tt, with_pool None (passed CallClose w))).
  { unfold disconnect.
    rewrite (bind_Ok _ _ _ _ _ (eq_refl : get pool w = (Ok (pool w), w))), Hp.
    now rewrite (bind_Ok _ _ _ _ _ (driver_calm CallClose w 0 Hc)). }
  exists (with_pool None (passed CallClose w)).
  split; [exact E|]. repeat apply conj; try reflexivity.
  rewrite (bind_Ok _ _ _ _ _ E).
  now apply disconnect_without_pool.
Qed.

Lemma disconnect_closes_once_witness :
  pool (world_started []) = Some (MkPool (lit "postgresql://app@db.example/utm")) /\
  calm 1 (faults (world_started [])) = true /\
  pool (snd (disconnect (world_started []))) = None.
Proof.
  split; [reflexivity|]. split; [reflexivity|].
  destruct (disconnect_closes_once (world_started [])
              (MkPool (lit "postgresql://app@db.example/utm")) eq_refl eq_refl)
    as (w' & E & Hp & _).
  now rewrite E.
Defined.

(** X10. When closing the pool raises, [disconnect] raises the same error
    and [db.pool] still holds the pool: the assignment after the [await] is
    not reached. *)
Theorem disconnect_close_failure w p e fs :
  pool w = Some p ->
  faults w = Some e :: fs ->
  exists w',
    disconnect w = (Raise e, w') /\
    pool w' = Some p /\
    trace w' = trace w ++ [CallClose] /\
    table w' = table w.
Proof.
  intros Hp Hf. exists (passed CallClose w). split.
  - unfold disconnect.
    rewrite (bind_Ok _ _ _ _ _ (eq_refl : get pool w = (Ok (pool w), w))), Hp.
    now rewrite (bind_Raise _ _ _ _ _ (driver_fault CallClose w e fs Hf)).
  - repeat apply conj; try reflexivity. exact Hp.
Qed.

Lemma disconnect_close_failure_witness :
  faults (world_started [Some sample_exn]) = [Some sample_exn] /\
  fst (disconnect (world_started [Some sample_exn])) = Raise sample_exn /\
  pool (snd (disconnect (world_started [Some sample_exn])))
    = Some (MkPool (lit "postgresql://app@db.example/utm")).
Proof.
  split; [reflexivity|].
  destruct (disconnect_close_failure (world_started [Some sample_exn])
              (MkPool (lit "postgresql://app@db.example/utm")) sample_exn []
              eq_refl eq_refl)
    as (w' & E & Hp & _).
  rewrite E. split; [reflexivity | exact Hp].
Defined.

(** ** [lifespan] *)

(** X11. When [connect] raises at startup, [lifespan] raises the same
    error: the record that the database is ready is not logged, the
    application is not run, and [disconnect] is not called. *)
Theorem lifespan_startup_failure {A} (app : M A) w e w1 :
  connect w = (Raise e, w1) ->
  lifespan app w = (Raise e, w1) /\
  lifespan_startup w = (Raise e, w1).
Proof.
  intros E.
  assert (S : lifespan_startup w = (Raise e, w1)).
  { unfold lifespan_startup. exact (bind_Raise _ _ _ _ _ E). }
  split; [|exact S]. unfold lifespan. exact (bind_Raise _ _ _ _ _ S).
Qed.

Lemma lifespan_startup_failure_witness :
  fst (connect world_no_url)
    = Raise (ValueError "DATABASE_URL environment variable is required") /\
  fst (lifespan health_route world_no_url)
    = Raise (ValueError "DATABASE_URL environment variable is required").
Proof.
  split; [reflexivity|].
  destruct (lifespan_startup_failure health_route world_no_url
              (ValueError "DATABASE_URL environment variable is required")
              (snd (connect world_no_url)) eq_refl) as [E _].
  now rewrite E.
Defined.

(** X12. [lifespan] around an application that returns: the startup
    connects and logs that the database is ready, the application runs in
    that world, and the shutdown closes the pool and clears [db.pool].  When
    the application raises, its error is raised and the pool is not closed:
    there is no [finally] around the [yield]. *)
Theorem lifespan_runs {A} (app : M A) w r w1 :
  connect w = (Ok r, w1) ->
  let ready := add_log ModuleLogger INFO
                 (Text (lit "Database connected and utm_clicks table ready")) w1 in
  lifespan_startup w = (Ok tt, ready) /\
  (forall a w2 p,
     app ready = (Ok a, w2) -> pool w2 = Some p -> calm 1 (faults w2) = true ->
     lifespan app w = (Ok a, with_pool None (passed CallClose w2))) /\
  (forall e w2,
     app ready = (Raise e, w2) -> lifespan app w = (Raise e, w2)).
Proof.
  intros E ready.
  assert (S : lifespan_startup w = (Ok tt, ready)).
  { unfold lifespan_startup. rewrite (bind_Ok _ _ _ _ _ E).
    exact (emit_logs ModuleLogger INFO _ w1 ltac:(discriminate)). }
  split; [exact S|]. split.
  - intros a w2 p Ea Hp Hc. unfold lifespan.
    rewrite (bind_Ok _ _ _ _ _ S), (bind_Ok _ _ _ _ _ Ea).
    unfold lifespan_shutdown.
    assert (D : disconnect w2 = (Ok tt, with_pool None (passed CallClose w2))).
    { unfold disconnect.
      rewrite (bind_Ok _ _ _ _ _ (eq_refl : get pool w2 = (Ok (pool w2), w2))), Hp.
      now rewrite (bind_Ok _ _ _ _ _ (driver_calm CallClose w2 0 Hc)). }
    now rewrite (bind_Ok _ _ _ _ _ D).
  - intros e w2 Ea. unfold lifespan.
    rewrite (bind_Ok _ _ _ _ _ S). exact (bind_Raise _ _ _ _ _ Ea).
Qed.

Lemma lifespan_runs_witness :
  fst (connect (world_unconnected [])) =
    Ok (Some (MkPool (lit "postgresql://app@db.example/utm"))) /\
  fst (lifespan_startup (world_unconnected [])) = Ok tt /\
  pool (snd (lifespan health_route (world_unconnected []))) = None.
Proof.
  split; [vm_compute; reflexivity|].
  destruct (lifespan_runs health_route (world_unconnected [])
              (Some (MkPool (lit "postgresql://app@db.example/utm")))
              (snd (connect (world_unconnected [])))
              ltac:(vm_compute; reflexivity)) as (S & H & _).
  split; [now rewrite S|].
  rewrite (H _ _ (MkPool (lit "postgresql://app@db.example/utm"))
             ltac:(vm_compute; reflexivity) ltac:(vm_compute; reflexivity)
             ltac:(vm_compute; reflexivity)).
  reflexivity.
Defined.

(** ** The append and the track route, step by step *)


Lemma insert_click_with_pool u ip ua ref w p :
  pool w = Some p -> insert_click u ip ua ref w = insert_statement u ip ua ref w.
Proof. intros Hp. now rewrite insert_click_eq, lazy_init_eq, Hp. Qed.





Lemma pool_add_log lg lv m w : pool (add_log lg lv m w) = pool w.
Proof. reflexivity. Qed.


Lemma next_id_add_log lg lv m w : next_id (add_log lg lv m w) = next_id w.
Proof. reflexivity. Qed.

Lemma trace_add_log lg lv m w : trace (add_log lg lv m w) = trace w.
Proof. reflexivity. Qed.

Lemma rows_add_log lg lv m w : rows (add_log lg lv m w) = rows w.
Proof. reflexivity. Qed.



(** ** Properties of the track route *)





(** X15. With the pool in place a request costs the store at most one
    statement: whatever the driver does, the handler returns a response,
    [db.pool] is unchanged (no new initialization, no close), and the driver
    has seen nothing, or one acquire that was refused, or one acquire, the
    [INSERT] of this request and the release. *)
Theorem track_one_statement req w p :
  pool w = Some p ->
  exists resp w',
    track_utm req w = (Ok resp, w') /\
    pool w' = Some p /\
    (trace w' = trace w \/
     trace w' = trace w ++ [CallAcquire] \/
     exists a, client req = Some a /\
       trace w' = trace w ++ [CallAcquire; request_insert req a; CallRelease]).
Proof.
  intros Hp. destruct (client req) as [a|] eqn:Ha.
  - rewrite (track_utm_client req w Ha). unfold gateway_call.
    rewrite (insert_click_with_pool _ _ _ _ (at_insert req a w) p Hp), insert_statement_eq.
    pose proof (insert_body_cases (utm_params_of (query_params req)) (host a)
                  (request_user_agent req) (request_referrer req) (at_insert req a w)) as Hb.
    destruct (insert_body (utm_params_of (query_params req)) (host a)
                (request_user_agent req) (request_referrer req) (at_insert req a w))
      as [[[]|e] w1].
    + destruct Hb as (rs & _ & _ & _ & Htr & _ & Hpool).
      eexists; eexists. split; [reflexivity|].
      rewrite pool_add_log, trace_add_log, Hpool, Htr.
      split; [exact Hp|]. right; right. exists a. split; reflexivity.
    + destruct Hb as (_ & _ & _ & Hpool & Htr).
      eexists; eexists. split; [reflexivity|].
      rewrite !pool_add_log, !trace_add_log, Hpool.
      split; [exact Hp|].
      destruct Htr as [[_ Htr]|[Htr|Htr]]; rewrite Htr.
      * left. reflexivity.
      * right; left. reflexivity.
      * right; right. exists a. split; reflexivity.
  - rewrite (track_utm_raise _ _ (track_body_no_client req w Ha)).
    eexists; eexists. split; [reflexivity|].
    rewrite pool_add_log, trace_add_log. split; [exact Hp|]. left. reflexivity.
Qed.

Lemma track_one_statement_witness :
  pool (world_started [None; Some sample_exn])
    = Some (MkPool (lit "postgresql://app@db.example/utm")) /\
  pool (snd (track_utm sample_request (world_started [None; Some sample_exn])))
    = Some (MkPool (lit "postgresql://app@db.example/utm")).
Proof.
  split; [reflexivity|].
  destruct (track_one_statement sample_request (world_started [None; Some sample_exn])
              (MkPool (lit "postgresql://app@db.example/utm")) eq_refl)
    as (resp & w' & E & Hp & _).
  now rewrite E.
Defined.

(** *** Row ids *)

Lemma ids_below_same w w' :
  rows w' = rows w -> next_id w' = next_id w -> ids_below w -> ids_below w'.
Proof. unfold ids_below. now intros -> ->. Qed.

Lemma lazy_init_keeps_data w :
  rows (snd (lazy_init w)) = rows w /\ next_id (snd (lazy_init w)) = next_id w.
Proof.
  rewrite lazy_init_eq. destruct (pool w); [split; reflexivity|].
  destruct (connect_keeps_data w) as (Hn & Hr & _).
  destruct (connect w) as [[r|e] w0]; split; assumption.
Qed.

(** What an append does to the rows: nothing, or one row with the next id. *)
Lemma insert_click_rows u ip ua ref w :
  (rows (snd (insert_click u ip ua ref w)) = rows w /\
   next_id (snd (insert_click u ip ua ref w)) = next_id w) \/
  (exists r, rows (snd (insert_click u ip ua ref w)) = rows w ++ [r] /\
     row_id r = next_id w /\
     next_id (snd (insert_click u ip ua ref w)) = next_id w + 1).
Proof.
  rewrite insert_click_eq.
  destruct (lazy_init_keeps_data w) as [Hr Hn].
  destruct (lazy_init w) as [[[]|e] w0]; simpl in Hr, Hn; [|left; split; assumption].
  rewrite insert_statement_eq.
  pose proof (insert_body_cases u ip ua ref w0) as Hb.
  destruct (insert_body u ip ua ref w0) as [[[]|e] w1].
  - destruct Hb as (rs & Ht & Ht' & Hn' & _). right.
    exists (new_row w0 u ip ua ref). cbn [snd].
    split; [|split].
    + unfold rows in *. rewrite Ht'. rewrite Ht in Hr. now rewrite Hr.
    + cbn [row_id new_row]. exact Hn.
    + now rewrite Hn', Hn.
  - destruct Hb as (Ht & Hn' & _). left. cbn [snd].
    rewrite rows_add_log, next_id_add_log. split.
    + unfold rows in *. now rewrite Ht.
    + now rewrite Hn'.
Qed.

Lemma track_utm_world req w :
  snd (track_utm req w) = add_log ModuleLogger ERROR
      (error_text (lit "Unexpected error in /track: ") (NoneType_has_no "host")) w \/
  exists a lg lv m,
    snd (track_utm req w) = add_log lg lv m (snd (gateway_call req a (at_insert req a w))).
Proof.
  destruct (client req) as [a|] eqn:Ha.
  - right. exists a. rewrite (track_utm_client req w Ha).
    destruct (gateway_call req a (at_insert req a w)) as [[[]|e] w1];
      eexists; eexists; eexists; reflexivity.
  - left. now rewrite (track_utm_raise _ _ (track_body_no_client req w Ha)).
Qed.

(** X16. Row ids stay unique and increasing: if every row has an id below
    the sequence, then after a track request, however it ends, that still
    holds, the sequence has not gone back, the old rows are all there, and a
    row that is new has the id the sequence stood at, which no older row
    has. *)
Theorem track_keeps_ids req w :
  ids_below w ->
  ids_below (snd (track_utm req w)) /\
  next_id w <= next_id (snd (track_utm req w)) /\
  (rows (snd (track_utm req w)) = rows w \/
   exists r, rows (snd (track_utm req w)) = rows w ++ [r] /\
     row_id r = next_id w /\ forall r', In r' (rows w) -> row_id r' < row_id r).
Proof.
  intros Hi.
  destruct (track_utm_world req w) as [E|(a & lg & lv & m & E)]; rewrite E.
  - rewrite rows_add_log, next_id_add_log. split; [|split].
    + now apply (ids_below_same w).
    + apply N.le_refl.
    + left. reflexivity.
  - unfold gateway_call.
    destruct (insert_click_rows (utm_params_of (query_params req)) (host a)
                (request_user_agent req) (request_referrer req) (at_insert req a w))
      as [[Hr Hn]|(r & Hr & Hid & Hn)];
      change (rows (at_insert req a w)) with (rows w) in Hr;
      change (next_id (at_insert req a w)) with (next_id w) in Hn.
    + split; [|split].
      * apply (ids_below_same w); [now rewrite rows_add_log | now rewrite next_id_add_log | exact Hi].
      * rewrite next_id_add_log, Hn. apply N.le_refl.
      * left. now rewrite rows_add_log.
    + change (next_id (at_insert req a w)) with (next_id w) in Hid.
      assert (Hlt : forall r', In r' (rows w) -> row_id r' < row_id r).
      { intros r' Hin. rewrite Hid. unfold ids_below in Hi.
        rewrite Forall_forall in Hi. now apply Hi. }
      split; [|split].
      * unfold ids_below. rewrite rows_add_log, next_id_add_log, Hr, Hn.
        apply Forall_app. split.
        -- unfold ids_below in Hi. rewrite Forall_forall in *.
           intros x Hx. specialize (Hi x Hx). lia.
        -- constructor; [lia | constructor].
      * rewrite next_id_add_log, Hn. lia.
      * right. exists r. rewrite rows_add_log. auto.
Qed.

Lemma track_keeps_ids_witness :
  ids_below (world_with_rows []) /\
  ids_below (snd (track_utm sample_request (world_with_rows []))).
Proof.
  assert (H : ids_below (world_with_rows [])).
  { unfold ids_below. constructor; [reflexivity | constructor]. }
  split; [exact H|]. exact (proj1 (track_keeps_ids sample_request (world_with_rows []) H)).
Defined.



(** ** The document, the filter and the headers *)

Lemma hexdigit_printable d : d < 16 -> printable (hexdigit d) = true.
Proof.
  intros H. unfold hexdigit, printable.
  destruct (N.ltb_spec d 10); apply andb_true_iff; split; apply N.leb_le; lia.
Qed.

Lemma uescape_printable n : forallb printable (uescape n) = true.
Proof.
  unfold uescape, hex4. cbn [forallb].
  rewrite !hexdigit_printable by (apply N.mod_lt; discriminate).
  reflexivity.
Qed.

Lemma enc_char_printable c : forallb printable (enc_char true c) = true.
Proof.
  unfold enc_char, dquote, backslash.
  destruct (c =? 34); [reflexivity|].
  destruct (c =? 92); [reflexivity|].
  destruct (c =? 8); [reflexivity|].
  destruct (c =? 12); [reflexivity|].
  destruct (c =? 10); [reflexivity|].
  destruct (c =? 13); [reflexivity|].
  destruct (c =? 9); [reflexivity|].
  destruct (N.ltb_spec c 32) as [Hlt|Hge]; [apply uescape_printable|].
  cbn [andb]. destruct (N.ltb_spec 126 c) as [Hnon|Hasc].
  - destruct (c <? 65536); [apply uescape_printable|].
    cbv zeta. rewrite forallb_app, !uescape_printable. reflexivity.
  - cbn [forallb]. unfold printable.
    rewrite andb_true_r. apply andb_true_iff. split; apply N.leb_le; assumption.
Qed.

Lemma enc_str_printable s : forallb printable (enc_str true s) = true.
Proof.
  unfold enc_str, dq. rewrite !forallb_app. cbn [forallb].
  replace (forallb printable (enc_body true s)) with true; [reflexivity|].
  symmetry. unfold enc_body. induction s as [|c s IH]; [reflexivity|].
  cbn [flat_map]. now rewrite forallb_app, enc_char_printable, IH.
Qed.

Lemma join_printable sep l :
  forallb printable sep = true ->
  (forall x, In x l -> forallb printable x = true) ->
  forallb printable (join sep l) = true.
Proof.
  intros Hs. induction l as [|x l IH]; intros Hl; [reflexivity|].
  destruct l as [|y l]; [apply Hl; now left|].
  change (join sep (x :: y :: l)) with (x ++ sep ++ join sep (y :: l)).
  rewrite !forallb_app, Hs, (Hl x (or_introl eq_refl)), IH; [reflexivity|].
  intros z Hz. apply Hl. now right.
Qed.

(** X18. The document [json.dumps] writes for the insert is printable
    ASCII, whatever the parameters hold: every control character, quote,
    backslash and character above [~] of a key or a value is escaped. *)
Theorem json_dumps_ascii d : forallb printable (json_dumps d) = true.
Proof.
  unfold json_dumps, json_dumps_with.
  change (lit "{") with [123]. change (lit "}") with [125].
  rewrite !forallb_app. cbn [forallb].
  rewrite join_printable; [reflexivity | reflexivity |].
  intros x Hx. apply in_map_iff in Hx as [[k v] [<- _]].
  unfold enc_member. cbn [fst snd].
  rewrite !forallb_app, !enc_str_printable. reflexivity.
Qed.

Lemma startswith_iff p s : startswith p s = true <-> exists rest, s = p ++ rest.
Proof.
  revert s. induction p as [|x p IH]; intros s.
  - split; [intros _; now exists s | reflexivity].
  - destruct s as [|y s]; simpl.
    + split; [discriminate | intros (rest & H); discriminate H].
    + rewrite andb_true_iff, N.eqb_eq, IH. split.
      * intros [-> (rest & ->)]. now exists rest.
      * intros (rest & H). injection H as -> ->. split; [reflexivity | now exists rest].
Qed.

(** X19. The keys the handler captures are the keys of the query string
    that are the four characters [utm_] followed by anything, the empty
    string included; the comparison is exact, character by character, and
    each captured key has the value of its last occurrence. *)
Theorem captured_keys qp k :
  (In k (keys (utm_params_of qp)) <->
   In k (map fst qp) /\ exists rest, k = lit "utm_" ++ rest) /\
  (dict_get k (utm_params_of qp) =
   if startswith (lit "utm_") k then last_value k qp else None).
Proof.
  split.
  - rewrite <- (startswith_iff (lit "utm_") k). split.
    + intros Hin. apply in_map_iff in Hin as [[k' v] [Hk Hin]]. simpl in Hk. subst k'.
      apply utm_params_of_In in Hin as [Hp Hl]. split; [|exact Hp].
      apply last_value_In in Hl. change k with (fst (k, v)). now apply in_map.
    + intros [Hin Hp]. destruct (last_value k qp) as [v|] eqn:E.
      * change k with (fst (k, v)). unfold keys. apply in_map.
        apply utm_params_of_In. split; assumption.
      * apply last_value_None in E. contradiction.
  - destruct (dict_get k (utm_params_of qp)) as [v|] eqn:E.
    + apply (dict_get_In _ k v (utm_params_of_NoDup qp)) in E.
      apply utm_params_of_In in E as [Hp Hl].
      change (lit "utm_") with utm_prefix. now rewrite Hp, Hl.
    + change (lit "utm_") with utm_prefix.
      destruct (startswith utm_prefix k) eqn:Hp; [|reflexivity].
      destruct (last_value k qp) as [v|] eqn:Hl; [|reflexivity].
      assert (Hin : In (k, v) (utm_params_of qp)) by (apply utm_params_of_In; auto).
      apply (dict_get_In _ k v (utm_params_of_NoDup qp)) in Hin. congruence.
Qed.

Lemma filter_filter {A} (f : A -> bool) l : filter f (filter f l) = filter f l.
Proof.
  induction l as [|x l IH]; [reflexivity|]. simpl.
  destruct (f x) eqn:E; simpl; rewrite ?E, IH; reflexivity.
Qed.

(** X20. Filtering is idempotent: the captured parameters, taken as a query
    string again, are captured unchanged, in the same order. *)
Theorem utm_params_of_idempotent qp :
  utm_params_of (utm_params_of qp) = utm_params_of qp.
Proof.
  rewrite (utm_params_of_filter (utm_params_of qp)).
  rewrite (items_distinct (utm_params_of qp) (utm_params_of_NoDup qp)).
  rewrite utm_params_of_filter. apply filter_filter.
Qed.

Lemma headers_get_absent hs name d :
  (forall v, ~ In (name, v) hs) -> headers_get hs name d = d.
Proof.
  induction hs as [|[n v] hs IH]; intros H; [reflexivity|]. simpl.
  destruct (str_eqb n name) eqn:E.
  - apply str_eqb_eq in E. subst. exfalso. apply (H v). now left.
  - apply IH. intros v' Hin. apply (H v'). now right.
Qed.

(** X21. Headers: a request without a [user-agent] or a [referer] header
    is stored with the empty string in its place, and of several headers
    of one name the first is the one stored. *)
Theorem headers_default_and_first req :
  ((forall v, ~ In (lit "user-agent", v) (headers req)) -> request_user_agent req = []) /\
  ((forall v, ~ In (lit "referer", v) (headers req)) -> request_referrer req = []) /\
  (forall before v after name d,
     (forall v', ~ In (name, v') before) ->
     headers_get (before ++ (name, v) :: after) name d = v).
Proof.
  split; [apply headers_get_absent|]. split; [apply headers_get_absent|].
  intros before v after name d H.
  induction before as [|[n x] before IH]; simpl.
  - now rewrite str_eqb_refl.
  - destruct (str_eqb n name) eqn:E.
    + apply str_eqb_eq in E. subst. exfalso. apply (H x). now left.
    + apply IH. intros v' Hin. apply (H v'). now right.
Qed.

(** ** The insert refused by the store *)






